(** * Verification of the claude-voice streaming pipeline

    Shallow embedding of the parts of the Python code base that the
    pipeline relies on:
    - [src/llm/chunker_fixed.py] and [src/llm/chunker.py]: the two sentence
      chunkers (strings are lists of ASCII characters, [str.strip],
      [str.lower], [str.isspace], [str.isupper] and the regular expressions
      are written out on ASCII);
    - [src/core/pipeline.py]: the orchestrator, as an error/event-log model;
    - [src/core/events.py]: [InMemoryEventObserver.emit];
    - [src/core/retry.py]: [retry_async] and [RateLimiter.acquire];
    - [src/audio/normalize.py]: [validate_audio_for_whisper] and the
      control flow of [normalize_for_whisper];
    - [src/llm/claude_api.py]: the conversation history of
      [ClaudeAPI.query_stream].

    Python floats are modelled as exact rationals [Q]. *)

From Stdlib Require Import Ascii String.
From Stdlib Require Import List Bool Arith Lia ZArith QArith Qround Qfield Qpower Qminmax Lqa.
Import ListNotations.
Open Scope nat_scope.

(** ** Characters and Python string helpers *)

Module PyStr.

Abbreviation text := (list ascii) (only parsing).

Definition s2l (s : string) : text := list_ascii_of_string s.

(** [str.isspace] on one ASCII character: \t \n \v \f \r, \x1c-\x1f and
    the space. *)
Definition is_space (c : ascii) : bool :=
  let n := nat_of_ascii c in
  ((9 <=? n) && (n <=? 13)) || ((28 <=? n) && (n <=? 32)).

(** [str.isupper] on one ASCII character. *)
Definition is_upper (c : ascii) : bool :=
  let n := nat_of_ascii c in (65 <=? n) && (n <=? 90).

(** [\d] on ASCII. *)
Definition is_digit (c : ascii) : bool :=
  let n := nat_of_ascii c in (48 <=? n) && (n <=? 57).

(** [str.lower] on ASCII. *)
Definition to_lower (c : ascii) : ascii :=
  if is_upper c then ascii_of_nat (nat_of_ascii c + 32) else c.

Definition lower (t : text) : text := map to_lower t.

Fixpoint lstrip (t : text) : text :=
  match t with
  | [] => []
  | c :: r => if is_space c then lstrip r else t
  end.

Definition rstrip (t : text) : text := rev (lstrip (rev t)).

Definition strip (t : text) : text := rstrip (lstrip t).

Definition eqb_text (a b : text) : bool :=
  if list_eq_dec ascii_dec a b then true else false.

Fixpoint prefixb (p t : text) : bool :=
  match p, t with
  | [], _ => true
  | a :: p', b :: t' => Ascii.eqb a b && prefixb p' t'
  | _ :: _, [] => false
  end.

(** [t.endswith(s)]. *)
Definition endswith (t s : text) : bool := prefixb (rev s) (rev t).

Definition count (c : ascii) (t : text) : nat :=
  length (filter (Ascii.eqb c) t).

Definition last_char (t : text) : option ascii :=
  match rev t with [] => None | c :: _ => Some c end.

(** [re.search(p + '$', t)] for a pattern [p] that cannot match a newline:
    [$] matches at the end of the string or just before a final newline. *)
Definition at_dollar (tail : text -> bool) (t : text) : bool :=
  tail t || (match last_char t with
             | Some c => Ascii.eqb c "010"%char && tail (removelast t)
             | None => false
             end).

End PyStr.

Import PyStr.

(** ** The edge-case chunker, [src/llm/chunker_fixed.py] *)

Module Fixed.

(** [self.abbreviations] *)
Definition abbreviations : list text :=
  map s2l ["mr"; "mrs"; "ms"; "dr"; "prof"; "sr"; "jr";
           "i.e"; "e.g"; "etc"; "vs"; "inc"; "ltd"; "corp";
           "st"; "ave"; "blvd"; "dept"; "fig"; "vol"; "no"]%string.

(** [_is_inside_quotes] *)
Definition is_inside_quotes (t : text) : bool :=
  negb (Nat.even (count (ascii_of_nat 34) t)) || negb (Nat.even (count "'"%char t)).

(** Suffix [\d+\.\d*] of a string, read on the reversed string. *)
Fixpoint decimal_tail_rev (r : text) : bool :=
  match r with
  | c :: r' =>
      if is_digit c then decimal_tail_rev r'
      else Ascii.eqb c "."%char &&
           (match r' with d :: _ => is_digit d | [] => false end)
  | [] => false
  end.

(** [_ends_with_decimal]: [re.search(r'\d+\.\d*$', text)] *)
Definition ends_with_decimal (t : text) : bool :=
  at_dollar (fun u => decimal_tail_rev (rev u)) t.

Fixpoint take_nonspace (r : text) : text :=
  match r with
  | c :: r' => if is_space c then [] else c :: take_nonspace r'
  | [] => []
  end.

(** The last run of non-whitespace characters of a string. *)
Definition last_run (t : text) : text := rev (take_nonspace (rev t)).

Fixpoint suffixes (t : text) : list text :=
  match t with [] => [[]] | _ :: r => t :: suffixes r end.

Definition url_keywords : list text :=
  map s2l ["www."; "http://"; "https://"]%string.

(** Suffix [(www\.|https?://)[^\s]*\.?] (case-insensitive): a keyword
    followed by non-whitespace characters up to the end. *)
Definition url_tail (t : text) : bool :=
  existsb (fun s => existsb (fun k => prefixb k (lower s)) url_keywords)
          (suffixes (last_run t)).

(** [_ends_with_url] *)
Definition ends_with_url (t : text) : bool := at_dollar url_tail t.

(** [_ends_with_incomplete_ellipsis] *)
Definition ends_with_incomplete_ellipsis (t : text) : bool :=
  endswith t (s2l ".") || endswith t (s2l "..").

(** [_ends_with_abbreviation] *)
Definition ends_with_abbreviation (t : text) : bool :=
  let tl := rstrip (lower t) in
  existsb (fun a => endswith tl (a ++ s2l ".")) abbreviations.

(** [_is_false_boundary] *)
Definition is_false_boundary (s : text) : bool :=
  let sl := strip (lower s) in
  existsb (fun a => endswith sl (a ++ s2l ".")) abbreviations
  || ends_with_decimal s || ends_with_url s.

Definition is_terminator (c : ascii) : bool :=
  Ascii.eqb c "."%char || Ascii.eqb c "!"%char || Ascii.eqb c "?"%char.

(** The [for char in text] loop of [_extract_sentences]; the state is
    [(sentences, current)].  Note [remaining = text[len(current):]]. *)
Definition split_step (m : nat) (text0 : text)
    (st : list text * text) (c : ascii) : list text * text :=
  let '(sentences, current) := st in
  let current := current ++ [c] in
  if is_terminator c && (m <=? length current) then
    let remaining := skipn (length current) text0 in
    let boundary :=
      match remaining with
      | [] => true
      | r0 :: r1 :: _ => is_space r0 && is_upper r1
      | _ :: [] => false
      end in
    if boundary && negb (is_false_boundary current)
    then (sentences ++ [strip current], [])
    else (sentences, current)
  else (sentences, current).

Definition split_loop (m : nat) (t : text) : list text * text :=
  fold_left (split_step m t) t ([], []).

(** [_extract_sentences] *)
Definition extract_sentences (m : nat) (t : text) : list text :=
  match t with
  | [] => []
  | _ =>
    if is_inside_quotes t || ends_with_decimal t || ends_with_url t
       || ends_with_incomplete_ellipsis t || ends_with_abbreviation t
    then [t]
    else
      let '(sentences, current) := split_loop m t in
      let sentences :=
        match current with [] => sentences | _ => sentences ++ [current] end in
      match sentences with [] => [t] | _ => sentences end
  end.

(** One token of [chunk_stream]: the sentences yielded (with the [final]
    flag of their SENTENCE_READY event) and the new buffer. *)
Definition chunk_token (m : nat) (buffer tok : text) : list text * text :=
  let buffer := buffer ++ tok in
  let sentences := extract_sentences m buffer in
  match sentences with
  | [] => ([], buffer)
  | _ => (filter (fun s => m <=? length s) (removelast sentences),
          last sentences [])
  end.

Fixpoint chunk_tokens (m : nat) (buffer : text) (toks : list text)
    : list text * text :=
  match toks with
  | [] => ([], buffer)
  | tok :: rest =>
      let '(out1, b1) := chunk_token m buffer tok in
      let '(out2, b2) := chunk_tokens m b1 rest in
      (out1 ++ out2, b2)
  end.

(** The final flush of [chunk_stream]. *)
Definition flush (buffer : text) : list text :=
  match strip buffer with [] => [] | s => [s] end.

(** [chunk_stream] on a finite token stream. *)
Definition chunk_stream (m : nat) (toks : list text) : list text :=
  let '(out, b) := chunk_tokens m [] toks in out ++ flush b.

End Fixed.

(** ** The basic chunker, [src/llm/chunker.py] *)

Module Basic.

Definition abbreviations : list text :=
  map s2l ["mr."; "mrs."; "ms."; "dr."; "prof."; "sr."; "jr.";
           "i.e."; "e.g."; "etc."; "vs."; "inc."; "ltd."; "corp."]%string.

Definition has_sentence_boundary (t : text) : bool :=
  existsb Fixed.is_terminator t.

(** Terminator positions of [text]. *)
Definition positions (t : text) : list nat :=
  map fst (filter (fun p => Fixed.is_terminator (snd p))
                  (combine (seq 0 (length t)) t)).

(** [_extract_sentence] *)
Definition extract_sentence (m : nat) (t : text) : text :=
  let fix go (ps : list nat) : text :=
    match ps with
    | [] => []
    | pos :: ps' =>
        let sentence := strip (firstn (pos + 1) t) in
        if existsb (fun a => endswith (lower sentence) a) abbreviations
        then go ps'
        else if length sentence <? m then go ps'
        else sentence
    end in
  go (positions t).

Definition chunk_token (m : nat) (buffer tok : text) : list text * text :=
  let buffer := buffer ++ tok in
  if has_sentence_boundary buffer then
    let sentence := extract_sentence m buffer in
    match sentence with
    | [] => ([], buffer)
    | _ => if m <=? length sentence
           then ([sentence], lstrip (skipn (length sentence) buffer))
           else ([], buffer)
    end
  else ([], buffer).

Fixpoint chunk_tokens (m : nat) (buffer : text) (toks : list text)
    : list text * text :=
  match toks with
  | [] => ([], buffer)
  | tok :: rest =>
      let '(out1, b1) := chunk_token m buffer tok in
      let '(out2, b2) := chunk_tokens m b1 rest in
      (out1 ++ out2, b2)
  end.

Definition chunk_stream (m : nat) (toks : list text) : list text :=
  let '(out, b) := chunk_tokens m [] toks in out ++ Fixed.flush b.

End Basic.

(** Token streams: one character per token, and the word tokens of
    [MockLLM._tokenize] ([text.split()] with a [" "] token between words). *)
Definition char_tokens (t : text) : list text := map (fun c => [c]) t.

Fixpoint split_words_acc (cur : text) (t : text) : list text :=
  match t with
  | [] => match cur with [] => [] | _ => [rev cur] end
  | c :: r =>
      if is_space c
      then match cur with [] => split_words_acc [] r
                          | _ => rev cur :: split_words_acc [] r end
      else split_words_acc (c :: cur) r
  end.

Definition mock_tokenize (t : text) : list text :=
  match split_words_acc [] t with
  | [] => []
  | w :: ws => w :: flat_map (fun w' => [s2l " "; w']) ws
  end.

Definition l2s := string_of_list_ascii.

(** ** Facts about the string helpers *)

(** [Emb ss t]: the strings [ss] occur in [t] as contiguous pieces, in
    order and without overlapping; the gaps between them are arbitrary. *)
Inductive Emb : list text -> text -> Prop :=
| Emb_nil t : Emb [] t
| Emb_cons g s ss t : Emb ss t -> Emb (s :: ss) (g ++ s ++ t).

Section EmbFacts.

Lemma Emb_app_r ss x y : Emb ss x -> Emb ss (x ++ y).
Proof.
  induction 1 as [t|g s ss t _ IH]; [constructor|].
  rewrite <- !app_assoc. constructor. exact IH.
Qed.

Lemma Emb_app_l ss x y : Emb ss x -> Emb ss (y ++ x).
Proof.
  intros H. destruct H as [t|g s ss t H]; [constructor|].
  rewrite app_assoc. constructor. exact H.
Qed.

Lemma Emb_app ss1 ss2 x1 x2 :
  Emb ss1 x1 -> Emb ss2 x2 -> Emb (ss1 ++ ss2) (x1 ++ x2).
Proof.
  intros H1 H2. induction H1 as [t|g s ss t _ IH].
  - simpl. apply Emb_app_l. exact H2.
  - simpl. rewrite <- !app_assoc. constructor. exact IH.
Qed.

Lemma Emb_filter f ss x : Emb ss x -> Emb (filter f ss) x.
Proof.
  induction 1 as [t|g s ss t _ IH]; simpl; [constructor|].
  destruct (f s).
  - constructor. exact IH.
  - rewrite app_assoc. apply Emb_app_l. exact IH.
Qed.

Lemma Emb_piece g s h : Emb [s] (g ++ s ++ h).
Proof. constructor. constructor. Qed.

Lemma Emb_snoc ss x g s : Emb ss x -> Emb (ss ++ [s]) (x ++ g ++ s).
Proof.
  intros H. replace (g ++ s) with (g ++ s ++ []) by (rewrite app_nil_r; reflexivity).
  apply Emb_app; [exact H | apply Emb_piece].
Qed.

End EmbFacts.

Lemma lstrip_suffix t : exists g, t = g ++ lstrip t.
Proof.
  induction t as [|c r IH]; simpl.
  - exists []. reflexivity.
  - destruct (is_space c).
    + destruct IH as [g Hg]. exists (c :: g). simpl. rewrite <- Hg. reflexivity.
    + exists []. reflexivity.
Qed.

Lemma rstrip_prefix t : exists h, t = rstrip t ++ h.
Proof.
  unfold rstrip. destruct (lstrip_suffix (rev t)) as [g Hg].
  exists (rev g). rewrite <- rev_app_distr, <- Hg, rev_involutive. reflexivity.
Qed.

Lemma strip_piece t : exists g h, t = g ++ strip t ++ h.
Proof.
  destruct (lstrip_suffix t) as [g Hg].
  destruct (rstrip_prefix (lstrip t)) as [h Hh].
  exists g, h. unfold strip. rewrite <- Hh. exact Hg.
Qed.

Lemma lstrip_snoc l c :
  is_space c = false -> exists l', lstrip (l ++ [c]) = l' ++ [c].
Proof.
  intros Hc. induction l as [|a r IH]; simpl.
  - rewrite Hc. exists []. reflexivity.
  - destruct (is_space a); [exact IH|]. exists (a :: r). reflexivity.
Qed.

Lemma strip_snoc l c :
  is_space c = false -> exists g, l ++ [c] = g ++ strip (l ++ [c]).
Proof.
  intros Hc. destruct (lstrip_snoc l c Hc) as [l' Hl'].
  destruct (lstrip_suffix (l ++ [c])) as [g Hg].
  assert (Hr : rstrip (l' ++ [c]) = l' ++ [c]).
  { unfold rstrip. rewrite rev_app_distr. simpl. rewrite Hc.
    change (c :: rev l') with ([c] ++ rev l').
    rewrite rev_app_distr, rev_involutive. reflexivity. }
  exists g. unfold strip. rewrite Hl', Hr, <- Hl'. exact Hg.
Qed.

Lemma terminator_not_space c : Fixed.is_terminator c = true -> is_space c = false.
Proof.
  unfold Fixed.is_terminator. intros H.
  repeat (apply orb_true_iff in H; destruct H as [H|H]);
    apply Ascii.eqb_eq in H; subst; reflexivity.
Qed.

(** ** Where the fixed chunker's output comes from *)

Module FixedFacts.
Import Fixed.

Definition Q_inv (s : list text) (x : text) : Prop :=
  s = [] \/ exists x0, x = x0 ++ last s [] /\ Emb (removelast s) x0.

Lemma Q_inv_Emb s x : Q_inv s x -> Emb s x.
Proof.
  intros [->|[x0 [-> H]]]; [constructor|].
  destruct s as [|a s'] using rev_ind; [constructor|].
  rewrite removelast_last in H. rewrite last_last.
  replace (x0 ++ a) with (x0 ++ [] ++ a) by reflexivity.
  apply Emb_snoc. exact H.
Qed.

Lemma split_fold_inv m t0 l : forall sents cur x,
  Q_inv sents x ->
  exists x', x ++ cur ++ l = x' ++ snd (fold_left (split_step m t0) l (sents, cur))
          /\ Q_inv (fst (fold_left (split_step m t0) l (sents, cur))) x'.
Proof.
  induction l as [|c l IH]; intros sents cur x Hq; simpl.
  - exists x. rewrite app_nil_r. split; [reflexivity | exact Hq].
  - unfold split_step at 2.
    destruct (is_terminator c && (m <=? length (cur ++ [c]))) eqn:Ht.
    2:{ destruct (IH sents (cur ++ [c]) x Hq) as [x' [E Q]].
        exists x'. rewrite <- E, <- app_assoc. split; [reflexivity | exact Q]. }
    apply andb_true_iff in Ht. destruct Ht as [Ht _].
    match goal with |- context [if ?b then _ else _] => destruct b end.
    2:{ destruct (IH sents (cur ++ [c]) x Hq) as [x' [E Q]].
        exists x'. rewrite <- E, <- app_assoc. split; [reflexivity | exact Q]. }
    destruct (strip_snoc cur c (terminator_not_space c Ht)) as [g Hg].
    assert (Hq' : Q_inv (sents ++ [strip (cur ++ [c])]) (x ++ cur ++ [c])).
    { right. exists (x ++ g). rewrite last_last, removelast_last.
      rewrite Hg at 1. rewrite app_assoc. split; [reflexivity|].
      apply Emb_app_r, Q_inv_Emb, Hq. }
    destruct (IH _ [] _ Hq') as [x' [E Q]].
    exists x'. rewrite <- E. simpl. rewrite <- !app_assoc. split; [reflexivity|exact Q].
Qed.

Lemma extract_split m t :
  extract_sentences m t = [] \/
  exists x, t = x ++ last (extract_sentences m t) []
         /\ Emb (removelast (extract_sentences m t)) x.
Proof.
  unfold extract_sentences. destruct t as [|a t']; [left; reflexivity|].
  right. set (t := a :: t').
  destruct (_ || _ || _ || _ || _).
  - exists []. split; [reflexivity | constructor].
  - unfold split_loop.
    destruct (split_fold_inv m t t [] [] [] (or_introl eq_refl)) as [x [E Q]].
    destruct (fold_left (split_step m t) t ([], [])) as [sents cur]. simpl in E, Q.
    destruct cur as [|c0 cur'].
    + rewrite app_nil_r in E. subst x.
      destruct Q as [->|[x0 [E' H]]].
      * exists []. split; [reflexivity | constructor].
      * destruct sents as [|s0 ss]; [exists []; split; [reflexivity|constructor]|].
        exists x0. split; assumption.
    + destruct (sents ++ [c0 :: cur']) as [|y ys] eqn:Hsc.
      { apply app_eq_nil in Hsc. destruct Hsc as [_ Hsc]. discriminate. }
      rewrite <- Hsc. exists x. rewrite last_last, removelast_last.
      split; [exact E | apply Q_inv_Emb, Q].
Qed.

Lemma chunk_token_emb m b tok :
  exists x, b ++ tok = x ++ snd (chunk_token m b tok)
         /\ Emb (fst (chunk_token m b tok)) x.
Proof.
  unfold chunk_token.
  destruct (extract_split m (b ++ tok)) as [E|[x [E H]]].
  - rewrite E. exists []. split; [reflexivity | constructor].
  - destruct (extract_sentences m (b ++ tok)) as [|s0 ss] eqn:Ex.
    + exists []. split; [reflexivity | constructor].
    + exists x. simpl fst. simpl snd. split; [exact E|]. apply Emb_filter, H.
Qed.

Lemma chunk_tokens_emb m toks : forall b,
  exists x, b ++ concat toks = x ++ snd (chunk_tokens m b toks)
         /\ Emb (fst (chunk_tokens m b toks)) x.
Proof.
  induction toks as [|tok rest IH]; intros b; simpl.
  - exists []. rewrite app_nil_r. split; [reflexivity | constructor].
  - destruct (chunk_token_emb m b tok) as [x1 [E1 H1]].
    destruct (chunk_token m b tok) as [out1 b1]. simpl in E1, H1.
    destruct (IH b1) as [x2 [E2 H2]].
    destruct (chunk_tokens m b1 rest) as [out2 b2]. simpl in E2, H2 |- *.
    exists (x1 ++ x2). rewrite app_assoc, E1, <- app_assoc, E2, app_assoc.
    split; [reflexivity | apply Emb_app; assumption].
Qed.

End FixedFacts.

(** A minimum sentence length longer than the whole stream: nothing is cut
    before the final flush. *)
Module FixedBig.
Import Fixed.

Lemma split_fold_big m t0 l : forall sents cur,
  length cur + length l < m ->
  fold_left (split_step m t0) l (sents, cur) = (sents, cur ++ l).
Proof.
  induction l as [|c l IH]; intros sents cur Hl; simpl.
  - rewrite app_nil_r. reflexivity.
  -
    replace (m <=? length (cur ++ [c])) with false
      by (symmetry; apply Nat.leb_gt; rewrite length_app; simpl in *; lia).
    rewrite andb_false_r, IH by (rewrite length_app; simpl in *; lia).
    rewrite <- app_assoc. reflexivity.
Qed.

Lemma chunk_token_big m b tok :
  length (b ++ tok) < m -> chunk_token m b tok = ([], b ++ tok).
Proof.
  intros Hl. unfold chunk_token, extract_sentences.
  destruct (b ++ tok) as [|a t'] eqn:E; [reflexivity|].
  destruct (_ || _ || _ || _ || _); [reflexivity|].
  unfold split_loop. rewrite split_fold_big by (simpl in *; lia).
  reflexivity.
Qed.

Lemma chunk_tokens_big m toks : forall b,
  length (b ++ concat toks) < m -> chunk_tokens m b toks = ([], b ++ concat toks).
Proof.
  induction toks as [|tok rest IH]; intros b Hl; simpl in *.
  - rewrite app_nil_r. reflexivity.
  - rewrite chunk_token_big by (rewrite !length_app in *; lia).
    rewrite IH by (rewrite <- app_assoc; exact Hl).
    rewrite app_assoc. reflexivity.
Qed.

Lemma chunk_stream_big m toks :
  length (concat toks) < m -> chunk_stream m toks = flush (concat toks).
Proof.
  intros Hl. unfold chunk_stream. rewrite chunk_tokens_big by exact Hl.
  reflexivity.
Qed.

End FixedBig.

Definition eqb_texts (a b : list text) : bool :=
  if list_eq_dec (list_eq_dec ascii_dec) a b then true else false.

(** Joining sentences with single spaces. *)
Fixpoint rejoin (ss : list text) : text :=
  match ss with
  | [] => []
  | [s] => s
  | s :: r => s ++ s2l " " ++ rejoin r
  end.

(** The three ways a text reaches the chunker in this repository: one
    character per token, the word tokens of [MockLLM], and one token. *)
Definition tokenizations (t : text) : list (list text) :=
  [char_tokens t; mock_tokenize t; [t]].

Definition never_split_upto (n : nat) (t : text) : bool :=
  forallb (fun m => forallb (fun toks => eqb_texts (Fixed.chunk_stream m toks) [t])
                            (tokenizations t))
          (seq 0 (S n)).

Definition never_split_check (t : text) : bool :=
  never_split_upto (length t) t
  && forallb (fun toks => eqb_text (concat toks) t) (tokenizations t)
  && eqb_text (strip t) t && negb (eqb_text t []).

Lemma never_split_all m t :
  never_split_check t = true ->
  forall toks, In toks (tokenizations t) -> Fixed.chunk_stream m toks = [t].
Proof.
  unfold never_split_check. intros Hc toks Hin.
  apply andb_true_iff in Hc as [Hc Hne]. apply andb_true_iff in Hc as [Hc Hs].
  apply andb_true_iff in Hc as [Hc Hcat].
  unfold eqb_text in Hs, Hne.
  destruct (list_eq_dec ascii_dec (strip t) t) as [Hs'|]; [|discriminate].
  destruct (list_eq_dec ascii_dec t []) as [|Hne']; [discriminate|].
  destruct (le_lt_dec m (length t)) as [Hm|Hm].
  - unfold never_split_upto in Hc. rewrite forallb_forall in Hc.
    specialize (Hc m ltac:(apply in_seq; lia)).
    rewrite forallb_forall in Hc. specialize (Hc toks Hin).
    unfold eqb_texts in Hc. destruct (list_eq_dec _ _ _); [assumption|discriminate].
  - rewrite forallb_forall in Hcat. specialize (Hcat toks Hin).
    unfold eqb_text in Hcat.
    destruct (list_eq_dec ascii_dec (concat toks) t) as [E|]; [|discriminate].
    rewrite FixedBig.chunk_stream_big by (rewrite E; exact Hm).
    rewrite E. unfold Fixed.flush. rewrite Hs'. destruct t; [contradiction|reflexivity].
Qed.

(** The four inputs of the spec's exclusion examples. *)
Definition ex_decimal : text := s2l "The value is 3.14. Next sentence.".
Definition ex_url : text := s2l "Visit www.example.com. Done.".
Definition ex_abbrev : text := s2l "Dr. Smith arrived.".
Definition ex_ellipsis : text := s2l "Wait... then go.".


(** ** Events, [src/core/events.py] *)

Inductive EventType :=
| AUDIO_CAPTURE_START | AUDIO_CAPTURE_COMPLETE
| STT_START | STT_COMPLETE | STT_ERROR
| LLM_QUERY_START | LLM_TOKEN_RECEIVED | LLM_COMPLETE | LLM_ERROR
| SENTENCE_READY
| TTS_START | TTS_COMPLETE | TTS_ERROR
| PIPELINE_START | PIPELINE_COMPLETE | PIPELINE_ERROR.

(** A value of an event's data: a [str], an [int], a [bool] or a finite
    [float]. *)
Inductive value := VText (t : text) | VNat (n : nat) | VBool (b : bool) | VFloat (q : Q).

(** [PipelineEvent]; [data] keeps the insertion order of the dict. *)
Record PipelineEvent := mkEvent {
  timestamp : Q;
  event_type : EventType;
  data : list (string * value)
}.

(** A Python exception: its class name and [str(e)]. *)
Record exn := mkExn { exn_type : text; exn_msg : text }.

Inductive result (A : Type) := Ok (a : A) | Err (e : exn).
Arguments Ok {A} a.
Arguments Err {A} e.

(** [isinstance(e, Exception)]: false for the built-in classes that derive
    from [BaseException] only. *)
Definition base_exception_names : list text :=
  map s2l ["BaseException"; "CancelledError"; "KeyboardInterrupt"; "SystemExit";
           "GeneratorExit"; "BaseExceptionGroup"]%string.

Definition is_exception (e : exn) : bool :=
  negb (existsb (eqb_text (exn_type e)) base_exception_names).

(** The exception that leaves an [except] clause which emits an event
    and then re-raises [e]: the emit's own exception, if it raised. *)
Definition reraise (r : result unit) (e : exn) : exn :=
  match r with Err e' => e' | Ok _ => e end.

(** ** Binary64 arithmetic *)

(** Python floats: a finite value (the rational it denotes), an infinity
    or NaN.  The sign of zero is not kept. *)
Module Float.
Local Open Scope Z_scope.

Inductive fval := Fin (q : Q) | PInf | NInf | NaN.

(** [floor(log2 |q|)] for [q <> 0]. *)
Definition ilog2 (q : Q) : Z :=
  let n := Z.abs (Qnum q) in
  let d := Zpos (Qden q) in
  let k := Z.log2 n - Z.log2 d in
  if 0 <=? k then (if 2 ^ k * d <=? n then k else k - 1)
  else (if d <=? n * 2 ^ (- k) then k else k - 1).

(** The integer nearest to [num / den] ([den > 0]), ties to even. *)
Definition round_ne (num den : Z) : Z :=
  let f := num / den in
  match Z.compare (2 * (num mod den)) den with
  | Lt => f
  | Gt => f + 1
  | Eq => if Z.even f then f else f + 1
  end.

(** [m * 2^e] as a rational. *)
Definition scaled (m e : Z) : Q :=
  if 0 <=? e then inject_Z (m * 2 ^ e) else Qmake m (Z.to_pos (2 ^ (- e))).

(** Rounding to the nearest binary64 value, ties to even: 53 significant
    bits, exponent of the last bit at least -1074, infinity from
    [2^1024 - 2^970] on. *)
Definition round (q : Q) : fval :=
  let n := Qnum q in
  let d := Zpos (Qden q) in
  if n =? 0 then Fin 0 else
  let e := Z.max (-1074) (ilog2 q - 52) in
  let m := if 0 <=? e then round_ne n (d * 2 ^ e) else round_ne (n * 2 ^ (- e)) d in
  if (0 <=? e) && (2 ^ 1024 <=? Z.abs m * 2 ^ e)
  then (if n <? 0 then NInf else PInf)
  else Fin (scaled m e).

(** The float a literal or a conversion denotes. *)
Definition of_Q (q : Q) : fval := round q.

Definition neg (a : fval) : fval :=
  match a with Fin x => Fin (- x) | PInf => NInf | NInf => PInf | NaN => NaN end.

Definition add (a b : fval) : fval :=
  match a, b with
  | NaN, _ | _, NaN => NaN
  | Fin x, Fin y => round (x + y)
  | PInf, NInf | NInf, PInf => NaN
  | PInf, _ | _, PInf => PInf
  | NInf, _ | _, NInf => NInf
  end.

Definition sub (a b : fval) : fval := add a (neg b).

(** The sign of a non-NaN value: [Lt], [Eq] (zero) or [Gt]. *)
Definition sign (a : fval) : comparison :=
  match a with
  | Fin x => Qcompare x 0
  | PInf => Gt
  | NInf | NaN => Lt
  end.

Definition inf_of (c : comparison) : fval :=
  match c with Gt => PInf | Lt => NInf | Eq => NaN end.

Definition sign_mul (c d : comparison) : comparison :=
  match c, d with
  | Eq, _ | _, Eq => Eq
  | Gt, Gt | Lt, Lt => Gt
  | _, _ => Lt
  end.

Definition mul (a b : fval) : fval :=
  match a, b with
  | NaN, _ | _, NaN => NaN
  | Fin x, Fin y => round (x * y)
  | _, _ => inf_of (sign_mul (sign a) (sign b))
  end.

(** IEEE division ([x / 0] is an infinity or NaN). *)
Definition div (a b : fval) : fval :=
  match a, b with
  | NaN, _ | _, NaN => NaN
  | Fin x, Fin y =>
      if Qeq_bool y 0 then inf_of (sign_mul (sign a) Gt) else round (x / y)
  | Fin _, _ => Fin 0
  | _, Fin _ => inf_of (sign_mul (sign a) (match sign b with Eq => Gt | c => c end))
  | _, _ => NaN
  end.

Definition zero_division : exn :=
  mkExn (s2l "ZeroDivisionError") (s2l "float division by zero").

(** Python's [a / b] on floats: it raises [ZeroDivisionError] on a zero
    divisor. *)
Definition py_div (a b : fval) : result fval :=
  match b with
  | Fin y => if Qeq_bool y 0 then Err zero_division else Ok (div a b)
  | _ => Ok (div a b)
  end.

(** [a < b] *)
Definition lt (a b : fval) : bool :=
  match a, b with
  | NaN, _ | _, NaN => false
  | Fin x, Fin y => negb (Qle_bool y x)
  | NInf, NInf => false
  | NInf, _ => true
  | _, PInf => true
  | _, _ => false
  end.

(** [min(a, b)]: the first argument unless the second is smaller. *)
Definition py_min (a b : fval) : fval := if lt b a then b else a.

Definition overflow_error : exn :=
  mkExn (s2l "OverflowError") (s2l "(34, 'Numerical result out of range')").

(** [b ** n] for a finite float [b] and an exponent [n >= 0] that came
    from an [int]: [pow] taken correctly rounded; a result that
    overflows raises [OverflowError]. *)
Definition pow (b : Q) (n : nat) : result fval :=
  match n with
  | O => Ok (Fin 1)
  | _ => match round (b ^ Z.of_nat n)%Q with
         | Fin x => Ok (Fin x)
         | _ => Err overflow_error
         end
  end.

(** [int(x)]: truncation; it raises on an infinity or NaN. *)
Definition py_int (a : fval) : result Z :=
  match a with
  | Fin x => Ok (if Qle_bool 0 x then Qfloor x else - Qfloor (- x))
  | PInf | NInf => Err (mkExn (s2l "OverflowError") (s2l "cannot convert float infinity to integer"))
  | NaN => Err (mkExn (s2l "ValueError") (s2l "cannot convert float NaN to integer"))
  end.

End Float.

(** [InMemoryEventObserver] *)
Module Observer.

(** A registered callback, by what it does with the event it receives:
    return normally ([None]) or raise. *)
Definition callback := PipelineEvent -> option exn.

Record InMemoryEventObserver := mkObserver {
  events : list PipelineEvent;
  callbacks : list callback
}.

(** [EventType(value)] for a string argument. *)
Definition event_value (k : EventType) : string :=
  match k with
  | AUDIO_CAPTURE_START => "audio_capture_start"
  | AUDIO_CAPTURE_COMPLETE => "audio_capture_complete"
  | STT_START => "stt_start" | STT_COMPLETE => "stt_complete"
  | STT_ERROR => "stt_error"
  | LLM_QUERY_START => "llm_query_start"
  | LLM_TOKEN_RECEIVED => "llm_token_received"
  | LLM_COMPLETE => "llm_complete" | LLM_ERROR => "llm_error"
  | SENTENCE_READY => "sentence_ready"
  | TTS_START => "tts_start" | TTS_COMPLETE => "tts_complete"
  | TTS_ERROR => "tts_error"
  | PIPELINE_START => "pipeline_start"
  | PIPELINE_COMPLETE => "pipeline_complete"
  | PIPELINE_ERROR => "pipeline_error"
  end%string.

Definition all_event_types : list EventType :=
  [AUDIO_CAPTURE_START; AUDIO_CAPTURE_COMPLETE; STT_START; STT_COMPLETE;
   STT_ERROR; LLM_QUERY_START; LLM_TOKEN_RECEIVED; LLM_COMPLETE; LLM_ERROR;
   SENTENCE_READY; TTS_START; TTS_COMPLETE; TTS_ERROR; PIPELINE_START;
   PIPELINE_COMPLETE; PIPELINE_ERROR].

(** [repr] of one character of a [str] delimited by [quote]. *)
Definition hex_digit (n : nat) : ascii :=
  ascii_of_nat (if n <? 10 then 48 + n else 87 + n).

Definition repr_char (quote c : ascii) : text :=
  let n := nat_of_ascii c in
  let bs := ascii_of_nat 92 in
  if Ascii.eqb c quote || (n =? 92) then [bs; c]
  else if n =? 9 then [bs; "t"%char]
  else if n =? 10 then [bs; "n"%char]
  else if n =? 13 then [bs; "r"%char]
  else if (n <? 32) || (n =? 127) || ((128 <=? n) && (n <=? 160)) || (n =? 173)
  then [bs; "x"%char; hex_digit (n / 16); hex_digit (n mod 16)]
  else [c].

(** [repr(v)] for a [str] (code points below 256): single quotes, or
    double quotes when [v] contains a single quote and no double quote. *)
Definition py_repr (v : text) : text :=
  let sq := ascii_of_nat 39 in
  let dq := ascii_of_nat 34 in
  let quote := if existsb (Ascii.eqb sq) v && negb (existsb (Ascii.eqb dq) v)
               then dq else sq in
  quote :: flat_map (repr_char quote) v ++ [quote].

(** The [ValueError] of [EventType(v)]. *)
Definition value_error (v : string) : exn :=
  mkExn (s2l "ValueError") (py_repr (s2l v) ++ s2l " is not a valid EventType").

Definition event_type_of_string (v : string) : result EventType :=
  match find (fun k => String.eqb (event_value k) v) all_event_types with
  | Some k => Ok k
  | None => Err (value_error v)
  end.

(** The [for callback in self._callbacks] loop: the indices of the
    callbacks invoked, in order, and whether one raised. *)
Fixpoint notify (ev : PipelineEvent) (i : nat) (cbs : list callback)
    : list nat * result unit :=
  match cbs with
  | [] => ([], Ok tt)
  | cb :: rest =>
      match cb ev with
      | Some e => ([i], Err e)
      | None => let '(inv, r) := notify ev (S i) rest in (i :: inv, r)
      end
  end.

(** [emit(event_type, data)] at time [now] ([time.time()]): the new state
    of the observer, the callbacks invoked and the outcome. *)
Definition emit (o : InMemoryEventObserver) (now : Q)
    (kind : EventType + string) (d : option (list (string * value)))
    : InMemoryEventObserver * list nat * result unit :=
  match (match kind with inl k => Ok k | inr v => event_type_of_string v end) with
  | Err e => (o, [], Err e)
  | Ok k =>
      let ev := mkEvent now k (match d with Some l => l | None => [] end) in
      let o' := mkObserver (events o ++ [ev]) (callbacks o) in
      let '(inv, r) := notify ev 0 (callbacks o) in
      (o', inv, r)
  end.

(** The first callback that raises on [ev], with its index. *)
Fixpoint first_raise (ev : PipelineEvent) (i : nat) (cbs : list callback)
    : option (nat * exn) :=
  match cbs with
  | [] => None
  | cb :: rest => match cb ev with Some e => Some (i, e) | None => first_raise ev (S i) rest end
  end.

End Observer.

(** ** The orchestrator, [src/core/pipeline.py] *)

Module Pipeline.
Import Observer.

(** The outcome of the task running [tts.speak(sentence)]: the time it
    completes and the exception it ends with, if any. *)
Record tts_outcome := mkTts { done_at : nat; raised : option exn }.

(** The collaborators of [VoicePipeline], at their interface: the tokens
    [llm.query_stream(text)] yields and the exception it raises after
    them, if any; the time at which the token stream is exhausted and
    [asyncio.gather] is called; the outcome of the task of [tts.speak] for
    the [i]-th sentence dispatched (from 0).  The chunker is the edge-case
    chunker with minimum length [min_len].  The providers are taken to log
    nothing to the observers below. *)
Record providers := {
  llm_tokens : text -> list text;
  llm_error : text -> option exn;
  gather_at : nat;
  tts : nat -> text -> tts_outcome;
  min_len : nat
}.

(** The observer the chunker was built with: none, the pipeline's own
    observer, or another one. *)
Inductive chunker_observer :=
| NoObserver
| PipelineObserver
| OwnObserver (o : InMemoryEventObserver).

(** The observers a run writes to. *)
Record state := mkState { pobs : InMemoryEventObserver; cobs : chunker_observer }.

(** [self.observer.emit(kind, d)] *)
Definition emit_p (st : state) (now : Q) (kind : EventType) (d : list (string * value))
    : state * result unit :=
  let '(o', _, r) := emit (pobs st) now (inl kind) (Some d) in (mkState o' (cobs st), r).

Definition sentence_data (s : text) (final : bool) : list (string * value) :=
  ("sentence"%string, VText (firstn 100 s)) :: ("length"%string, VNat (length s))
  :: (if final then [("final"%string, VBool true)] else []).

Definition sentence_event (now : Q) (s : text) (final : bool) : PipelineEvent :=
  mkEvent now SENTENCE_READY (sentence_data s final).

(** The chunker's [if self.observer: self.observer.emit(SENTENCE_READY, ...)]. *)
Definition emit_sentence (st : state) (now : Q) (s : text) (final : bool)
    : state * result unit :=
  match cobs st with
  | NoObserver => (st, Ok tt)
  | PipelineObserver => emit_p st now SENTENCE_READY (sentence_data s final)
  | OwnObserver o =>
      let '(o', _, r) := emit o now (inl SENTENCE_READY) (Some (sentence_data s final)) in
      (mkState (pobs st) (OwnObserver o'), r)
  end.

(** The chunker yields the sentences [ss], each announced first; the
    pipeline dispatches each one it receives.  An exception of an emit
    ends the [async for]. *)
Fixpoint yield_sentences (st : state) (now : Q) (final : bool) (ss : list text)
    : state * list text * option exn :=
  match ss with
  | [] => (st, [], None)
  | s :: rest =>
      let '(st1, r) := emit_sentence st now s final in
      match r with
      | Err e => (st1, [], Some e)
      | Ok _ =>
          let '(st2, ys, err) := yield_sentences st1 now final rest in
          (st2, s :: ys, err)
      end
  end.

(** The tasks created for the dispatched sentences, from index [i]. *)
Fixpoint create_tasks (p : providers) (i : nat) (ds : list text) : list tts_outcome :=
  match ds with
  | [] => []
  | s :: rest => tts p i s :: create_tasks p (S i) rest
  end.

(** When [gather], called at time [g], sees a task end: the callbacks of
    the tasks already done are scheduled at once, in argument order; the
    others run as the tasks complete. *)
Definition key (g : nat) (o : tts_outcome) : nat :=
  if done_at o <=? g then 0 else done_at o.

Fixpoint gather_loop (g : nat) (best : option (nat * exn)) (outs : list tts_outcome)
    : option (nat * exn) :=
  match outs with
  | [] => best
  | o :: rest =>
      match raised o with
      | None => gather_loop g best rest
      | Some e =>
          match best with
          | Some (k, _) =>
              if key g o <? k then gather_loop g (Some (key g o, e)) rest
              else gather_loop g best rest
          | None => gather_loop g (Some (key g o, e)) rest
          end
      end
  end.

(** [await asyncio.gather] over the [tts_tasks], called at time [g]:
    the exception of the first failing task it sees, or success when none
    fails. *)
Definition gather (g : nat) (outs : list tts_outcome) : result unit :=
  match gather_loop g None outs with
  | Some (_, e) => Err e
  | None => Ok tt
  end.

(** [_process_text_query]: the sentences dispatched to [tts.speak], in
    order, and the outcome.  An exception of the token stream leaves
    [async for] before the final flush and before the gather. *)
Definition process_text_query (p : providers) (st : state) (now : Q) (text0 : text)
    : state * list text * result unit :=
  let '(out, b) := Fixed.chunk_tokens (min_len p) [] (llm_tokens p text0) in
  let '(st1, ys1, e1) := yield_sentences st now false out in
  match e1 with
  | Some e => (st1, ys1, Err e)
  | None =>
      match llm_error p text0 with
      | Some e => (st1, ys1, Err e)
      | None =>
          let '(st2, ys2, e2) := yield_sentences st1 now true (Fixed.flush b) in
          let tts_tasks := ys1 ++ ys2 in
          match e2 with
          | Some e => (st2, tts_tasks, Err e)
          | None =>
              (st2, tts_tasks,
               match tts_tasks with
               | [] => Ok tt
               | _ => gather (gather_at p) (create_tasks p 0 tts_tasks)
               end)
          end
      end
  end.

Definition error_data (e : exn) : list (string * value) :=
  [("error"%string, VText (exn_msg e)); ("error_type"%string, VText (exn_type e))].

Definition error_event (now : Q) (e : exn) : PipelineEvent :=
  mkEvent now PIPELINE_ERROR (error_data e).

(** [except Exception as e: self.observer.emit(PIPELINE_ERROR, ...); raise];
    other exceptions pass through. *)
Definition handle (st : state) (now : Q) (e : exn) : state * exn :=
  if is_exception e then
    let '(st', r) := emit_p st now PIPELINE_ERROR (error_data e) in (st', reraise r e)
  else (st, e).

(** [process_text] *)
Definition process_text (p : providers) (st : state) (now : Q) (text0 : text)
    : state * list text * result unit :=
  let d := [("text"%string, VText (firstn 100 text0))] in
  let '(st1, r1) := emit_p st now PIPELINE_START d in
  match r1 with
  | Err e => (st1, [], Err e)
  | Ok _ =>
      let '(st2, ds, r) := process_text_query p st1 now text0 in
      match r with
      | Err e => let '(st3, e') := handle st2 now e in (st3, ds, Err e')
      | Ok _ =>
          let '(st3, r3) := emit_p st2 now PIPELINE_COMPLETE d in
          match r3 with
          | Ok _ => (st3, ds, Ok tt)
          | Err e => let '(st4, e') := handle st3 now e in (st4, ds, Err e')
          end
      end
  end.




Definition is_error (ev : PipelineEvent) : bool :=
  match event_type ev with PIPELINE_ERROR => true | _ => false end.


End Pipeline.

(** ** Audio validation, [src/audio/types.py] and [src/audio/normalize.py] *)

Module Audio.

Inductive AudioFormat := WAV | MP3 | FLAC | AIFF | PCM.

Record AudioData := mkAudio {
  audio_data : list Byte.byte;
  sample_rate : Z;
  format : AudioFormat;
  channels : Z;
  duration_ms : option Q
}.

(** [AudioData.__post_init__] accepts the object. *)
Definition well_formed (a : AudioData) : Prop :=
  (0 < sample_rate a)%Z /\ (0 < channels a)%Z /\ audio_data a <> [].

Definition size_bytes (a : AudioData) : Z := Z.of_nat (length (audio_data a)).

Definition WHISPER_SAMPLE_RATE : Z := 16000.
Definition WHISPER_CHANNELS : Z := 1.
Definition WHISPER_MAX_FILE_SIZE_MB : Q := 25.
Definition WHISPER_MIN_DURATION_MS : Q := 100.

(** The exceptions of [src/audio/exceptions.py] raised here, with the
    values they carry. *)
Inductive audio_error :=
| AudioTooShortError (duration_ms minimum_ms : Q)
| AudioTooLongError (size_mb maximum_mb : Q)
| AudioFormatError (msg : text)
| AudioNormalizationError (msg : text).

(** [x < y] on floats. *)
Definition Qlt_bool (x y : Q) : bool := negb (Qle_bool y x).

(** Python truthiness of [audio.duration_ms]. *)
Definition truthy (d : option Q) : bool :=
  match d with None => false | Some x => negb (Qeq_bool x 0) end.

(** [AudioFormat.value] *)
Definition format_value (f : AudioFormat) : text :=
  s2l match f with
      | WAV => "wav" | MP3 => "mp3" | FLAC => "flac" | AIFF => "aiff" | PCM => "pcm"
      end.

(** [validate_audio_for_whisper]: [None] when it returns, [Some err] when
    it raises [err]. *)
Definition validate_audio_for_whisper (a : AudioData) : option audio_error :=
  let too_short :=
    match duration_ms a with
    | Some d => if truthy (duration_ms a) && Qlt_bool d WHISPER_MIN_DURATION_MS
                then Some (AudioTooShortError d WHISPER_MIN_DURATION_MS) else None
    | None => None
    end in
  match too_short with
  | Some e => Some e
  | None =>
      let size_mb := (inject_Z (size_bytes a) / (1024 * 1024))%Q in
      if Qlt_bool WHISPER_MAX_FILE_SIZE_MB size_mb
      then Some (AudioTooLongError size_mb WHISPER_MAX_FILE_SIZE_MB)
      else match format a with
           | WAV | FLAC | MP3 => None
           | f => Some (AudioFormatError (s2l "Whisper requires WAV/FLAC/MP3, got "
                                         ++ format_value f))
           end
  end.

Section Normalize.
(** The sample processing of [normalize_for_whisper] (parsing, mono
    conversion, resampling: [_parse_audio_to_samples], [_convert_to_mono],
    [_resample]) and the WAV encoding [_samples_to_wav] are left abstract:
    [samples_of a] is the list of 16 kHz mono samples or the error raised
    on the way (already mapped through the [except] clauses);
    [samples_to_wav s] is the WAV file, or [str(e)] of the exception it
    raises. *)
Variable samples_of : AudioData -> sum audio_error (list Q).
Variable samples_to_wav : list Q -> sum text (list Byte.byte).

Definition is_normalized (a : AudioData) : bool :=
  Z.eqb (sample_rate a) WHISPER_SAMPLE_RATE && Z.eqb (channels a) WHISPER_CHANNELS
  && match format a with WAV => true | _ => false end.

(** The [AudioData] built from the WAV bytes [wav] of the samples. *)
Definition normalized_audio (wav : list Byte.byte) (samples : list Q) : AudioData :=
  mkAudio wav WHISPER_SAMPLE_RATE WAV WHISPER_CHANNELS
          (Some (inject_Z (Z.of_nat (length samples)) / inject_Z WHISPER_SAMPLE_RATE * 1000)%Q).

(** [normalize_for_whisper] *)
Definition normalize_for_whisper (a : AudioData) : sum audio_error AudioData :=
  if is_normalized a then
    match validate_audio_for_whisper a with
    | Some e => inl e
    | None => inr a
    end
  else
    match samples_of a with
    | inl e => inl e
    | inr samples =>
        match samples_to_wav samples with
        | inl m => inl (AudioNormalizationError (s2l "Failed to normalize audio: " ++ m))
        | inr wav =>
            let n := normalized_audio wav samples in
            match audio_data n with
            | [] => inl (AudioNormalizationError
                           (s2l "Failed to normalize audio: Audio data cannot be empty"))
            | _ =>
                match validate_audio_for_whisper n with
                | Some e => inl e
                | None => inr n
                end
            end
        end
    end.

End Normalize.

End Audio.

(** ** Retry with backoff, [src/core/retry.py] *)

Module Retry.

Record RetryConfig := {
  max_attempts : Z;
  initial_delay_ms : Q;
  max_delay_ms : Q;
  exponential_base : Q;
  jitter : bool
}.

Definition default_config : RetryConfig :=
  {| max_attempts := 3; initial_delay_ms := 100; max_delay_ms := 10000;
     exponential_base := 2; jitter := true |}.

(** [get_delay_ms] in binary64; [r] is the value of [random.random()]
    drawn for this attempt.  The fields of the configuration hold finite
    floats.  It raises [OverflowError] when [exponential_base ** attempt]
    overflows. *)
Definition get_delay_ms (c : RetryConfig) (attempt : nat) (r : Q) : result Float.fval :=
  match Float.pow (exponential_base c) attempt with
  | Err e => Err e
  | Ok p =>
      let delay := Float.mul (Float.Fin (initial_delay_ms c)) p in
      let delay := Float.py_min delay (Float.Fin (max_delay_ms c)) in
      if jitter c then
        let jitter_factor :=
          Float.add (Float.Fin 1)
                    (Float.mul (Float.sub (Float.Fin r) (Float.Fin (1#2))) (Float.Fin (1#2))) in
        Ok (Float.mul delay jitter_factor)
      else Ok delay
  end.

(** What one invocation of [func] does. *)
Inductive outcome (A : Type) := Return (v : A) | Raise (e : exn).
Arguments Return {A} v.
Arguments Raise {A} e.

(** A run of [retry_async]: its result ([None] when it never returns:
    [asyncio.sleep(inf)] does not wake up), how many times [func] was
    invoked, the retries announced to [on_retry] ([(e, attempt + 1)]) and
    the arguments of [asyncio.sleep] (in seconds). *)
Record run (A : Type) := mkRun {
  r_result : option (result A);
  r_calls : nat;
  r_retries : list (exn * nat);
  r_sleeps : list Float.fval
}.
Arguments mkRun {A}.
Arguments r_result {A}.
Arguments r_calls {A}.
Arguments r_retries {A}.
Arguments r_sleeps {A}.

Definition runtime_error : exn :=
  mkExn (s2l "RuntimeError") (s2l "Retry logic error: no exception raised").

Section RetryAsync.
Context {A : Type}.
(** [func i] is the outcome of the [i]-th invocation (from 0) of the
    operation; [retryable e] is [isinstance(e, retryable_exceptions)];
    [rand i] is the jitter draw after the [i]-th failure; [func_name] is
    the outcome of evaluating [func.__name__] (for the log messages);
    [str_exn e] is what [str(e)] does in the warning ([None]: it returns a
    string; [Some e']: it raises [e']); [on_retry e n] is what the callback does ([None]: it returns, or no
    callback is given; [Some e']: it raises [e']). *)
Variable func : nat -> outcome A.
Variable retryable : exn -> bool.
Variable rand : nat -> Q.
Variable func_name : result text.
Variable str_exn : exn -> option exn.
Variable on_retry : exn -> nat -> option exn.
Variable config : RetryConfig.

Definition stop (calls : nat) (r : result A) : run A := mkRun (Some r) calls [] [].

(** The [for attempt in range(config.max_attempts)] loop from [attempt]
    on, with [k] iterations left and [last_exception]. *)
Fixpoint retry_loop (attempt k : nat) (last_exception : option exn)
    : run A :=
  match k with
  | O =>
      match last_exception with
      | Some e => stop attempt (Err e)
      | None => stop attempt (Err runtime_error)
      end
  | S k' =>
      match func attempt with
      | Return v => stop (S attempt) (Ok v)
      | Raise e =>
          if retryable e then
            if Z.eqb (Z.of_nat attempt) (max_attempts config - 1)%Z
            then
              (* [logger.error(f"... {func.__name__}")], then [raise] *)
              match func_name with
              | Err e' => stop (S attempt) (Err e')
              | Ok _ => stop (S attempt) (Err e)
              end
            else
              match get_delay_ms config attempt (rand attempt) with
              | Err e' => stop (S attempt) (Err e')
              | Ok delay_ms =>
                  (* [logger.warning(f"... {func.__name__}: {e}. ...")] *)
                  match func_name, str_exn e with
                  | Err e', _ => stop (S attempt) (Err e')
                  | Ok _, Some e' => stop (S attempt) (Err e')
                  | Ok _, None =>
                      match on_retry e (S attempt) with
                      | Some e' => mkRun (Some (Err e')) (S attempt) [(e, S attempt)] []
                      | None =>
                          let secs := Float.div delay_ms (Float.Fin 1000) in
                          match secs with
                          | Float.PInf => mkRun None (S attempt) [(e, S attempt)] [secs]
                          | _ =>
                              let rest := retry_loop (S attempt) k' (Some e) in
                              mkRun (r_result rest) (r_calls rest)
                                    ((e, S attempt) :: r_retries rest)
                                    (secs :: r_sleeps rest)
                          end
                      end
                  end
              end
          else stop (S attempt) (Err e)
      end
  end.

(** [retry_async] *)
Definition retry_async : run A :=
  retry_loop 0 (Z.to_nat (max_attempts config)) None.

End RetryAsync.

End Retry.

(** ** Conversation history, [src/llm/claude_api.py] *)

Module History.
Import Observer.

Record Message := mkMessage { role : text; content : text }.

Definition MAX_HISTORY_TURNS : nat := 50.

(** [l[-n:]] for [n > 0]. *)
Definition last_n (n : nat) {A} (l : list A) : list A := skipn (length l - n) l.

(** The fields of [ClaudeAPI] that [query_stream] reads. *)
Record ClaudeAPI := mkClaudeAPI { model : text; timeout : Q }.

(** [if self.observer: self.observer.emit(kind, d)]; [None] is an absent
    observer. *)
Definition emit_opt (o : option InMemoryEventObserver) (now : Q) (kind : EventType)
    (d : list (string * value)) : option InMemoryEventObserver * result unit :=
  match o with
  | None => (None, Ok tt)
  | Some ob => let '(ob', _, r) := emit ob now (inl kind) (Some d) in (Some ob', r)
  end.

(** A run of the [query_stream(text)] generator: the observer, the
    history, the tokens yielded and how the generator ends. *)
Record qs_run := mkQsRun {
  qs_obs : option InMemoryEventObserver;
  qs_history : list Message;
  qs_yielded : list text;
  qs_result : result unit
}.

(** The [async for text_chunk in stream.text_stream] loop: the stream
    yields [toks] and then ends, normally ([err = None]) or by raising.
    The first token is announced with [LLM_TOKEN_RECEIVED]; an exception of
    that emit ends the loop before the token is yielded. *)
Fixpoint stream_loop (o : option InMemoryEventObserver) (now : Q) (first_token : bool)
    (toks : list text) (err : option exn)
    : option InMemoryEventObserver * list text * option exn :=
  match toks with
  | [] => (o, [], err)
  | chunk :: rest =>
      let '(o1, r) :=
        if first_token then emit_opt o now LLM_TOKEN_RECEIVED [("token"%string, VText (firstn 50 chunk))]
        else (o, Ok tt) in
      match r with
      | Err e => (o1, [], Some e)
      | Ok _ =>
          let first_token := if first_token then (match o with None => true | Some _ => false end)
                             else false in
          let '(o2, ys, err') := stream_loop o1 now first_token rest err in
          (o2, chunk :: ys, err')
      end
  end.

Section QueryStream.
Variable api : ClaudeAPI.
Variable now : Q.
Variable text0 : text.

(** The two outer handlers: [except asyncio.CancelledError] and
    [except Exception as e]; other exceptions propagate. *)
Definition outer_handler (o : option InMemoryEventObserver) (h : list Message)
    (ys : list text) (e : exn) : qs_run :=
  if eqb_text (exn_type e) (s2l "CancelledError") then
    let '(o', r) := emit_opt o now LLM_ERROR [("error"%string, VText (s2l "Cancelled"))] in
    mkQsRun o' h ys (Err (reraise r e))
  else if is_exception e then
    let '(o', r) := emit_opt o now LLM_ERROR
                      [("error"%string, VText (exn_msg e)); ("error_type"%string, VText (exn_type e));
                       ("query_length"%string, VNat (length text0));
                       ("conversation_turn"%string, VNat (length h));
                       ("model"%string, VText (model api))] in
    mkQsRun o' h ys (Err (reraise r e))
  else mkQsRun o h ys (Err e).

(** [ClaudeAPI.query_stream(text0)] run to its end, on the history
    [history]: the streamed response yields [toks] and then ends normally
    ([err = None]) or raises [err] (an exception of the client, the
    [TimeoutError] of [asyncio.timeout], a [CancelledError], ...).
    [time.time()] reads [now] throughout. *)
Definition query_stream (o : option InMemoryEventObserver) (history : list Message)
    (toks : list text) (err : option exn) : qs_run :=
  let '(o1, r1) := emit_opt o now LLM_QUERY_START [("query"%string, VText (firstn 100 text0))] in
  match r1 with
  | Err e => mkQsRun o1 history [] (Err e)
  | Ok _ =>
      let h1 := history ++ [mkMessage (s2l "user") text0] in
      let h1 := if MAX_HISTORY_TURNS <? length h1 then last_n MAX_HISTORY_TURNS h1 else h1 in
      let '(o2, ys, inner) := stream_loop o1 now true toks err in
      match inner with
      | Some e =>
          if eqb_text (exn_type e) (s2l "TimeoutError") then
            let '(o3, r3) := emit_opt o2 now LLM_ERROR
                               [("error"%string, VText (s2l "Timeout"));
                                ("timeout_seconds"%string, VFloat (timeout api))] in
            outer_handler o3 h1 ys (reraise r3 e)
          else outer_handler o2 h1 ys e
      | None =>
          let response := concat toks in
          let h2 := h1 ++ [mkMessage (s2l "assistant") response] in
          let '(o3, r3) := emit_opt o2 now LLM_COMPLETE
                             [("total_tokens"%string, VNat (length toks));
                              ("response_length"%string, VNat (length response))] in
          match r3 with
          | Ok _ => mkQsRun o3 h2 ys (Ok tt)
          | Err e => outer_handler o3 h2 ys e
          end
      end
  end.

End QueryStream.

End History.

(** ** Token-bucket rate limiter, [src/core/retry.py] *)

Module RateLimit.
Local Open Scope Q_scope.

Record RateLimiter := mkLimiter {
  tokens_per_second : Q;
  bucket_size : Z;
  tokens : Q;
  last_update : Q
}.

(** [int(x)] on a float: truncation towards zero. *)
Definition py_int (x : Q) : Z :=
  if Qle_bool 0 x then Qfloor x else (- Qfloor (- x))%Z.

(** [min(a, b)] *)
Definition py_min (a b : Q) : Q := if Qle_bool a b then a else b.

(** [RateLimiter.__init__] at loop time [now]: [bucket_size or
    int(tokens_per_second)]. *)
Definition init (rate : Q) (bucket : option Z) (now : Q) : RateLimiter :=
  let b := match bucket with
           | Some b => if Z.eqb b 0 then py_int rate else b
           | None => py_int rate
           end in
  mkLimiter rate b (inject_Z b) now.

Section Acquire.
(** [sleep i w] is the time that passes on the loop clock during the
    [i]-th [asyncio.sleep(w)] of the call. *)
Variable sleep : nat -> Q -> Q.

(** The [while True] loop of [acquire(n)] entered at clock time [now],
    allowed [fuel] more suspensions: [Some] the limiter after the call
    returned, [None] when it is still waiting after [fuel] suspensions. *)
Fixpoint acquire_loop (fuel i : nat) (rl : RateLimiter) (now : Q) (n : Z)
    : option RateLimiter :=
  let elapsed := now - last_update rl in
  let t := py_min (inject_Z (bucket_size rl))
                  (tokens rl + elapsed * tokens_per_second rl) in
  if Qle_bool (inject_Z n) t then
    Some (mkLimiter (tokens_per_second rl) (bucket_size rl) (t - inject_Z n) now)
  else
    match fuel with
    | O => None
    | S f =>
        let wait_time := (inject_Z n - t) / tokens_per_second rl in
        acquire_loop f (S i)
          (mkLimiter (tokens_per_second rl) (bucket_size rl) t now)
          (now + sleep i wait_time) n
    end.

(** [acquire(n)] returns after at most [k] suspensions. *)
Definition acquire_returns_within (k : nat) (rl : RateLimiter) (now : Q) (n : Z) : Prop :=
  exists r, acquire_loop k 0 rl now n = Some r.

End Acquire.

End RateLimit.

(** ** Sample processing, [src/audio/normalize.py] *)

Module Samples.
Import Audio.
Local Open Scope Q_scope.

(** [str(n)] for an integer. *)
Fixpoint digits_rev (fuel n : nat) : text :=
  match fuel with
  | O => []
  | S f => ascii_of_nat (48 + n mod 10) ::
             (if n <? 10 then [] else digits_rev f (n / 10))
  end%nat.

Definition str_int (z : Z) : text :=
  let n := Z.to_nat (Z.abs z) in
  (if (z <? 0)%Z then s2l "-" else []) ++ rev (digits_rev (S n) n).

(** [max(a, b)] on floats (the first argument unless the second is
    larger). *)
Definition py_max (a b : Q) : Q := if Qlt_bool a b then b else a.

(** A byte from an integer in [0, 255]. *)
Definition byte_of_Z (z : Z) : Byte.byte :=
  match Byte.of_N (Z.to_N z) with Some b => b | None => Byte.x00 end.

Definition byte_Z (b : Byte.byte) : Z := Z.of_N (Byte.to_N b).

(** [struct.pack('<H', x)] and [struct.pack('<L', x)] for [x] in range. *)
Definition le16u (x : Z) : list Byte.byte :=
  [byte_of_Z (x mod 256); byte_of_Z (x / 256 mod 256)]%Z.

Definition le32u (x : Z) : list Byte.byte :=
  le16u (x mod 65536)%Z ++ le16u (x / 65536)%Z.

(** [struct.pack('<h', x)]: two's complement, little endian. *)
Definition le16 (x : Z) : list Byte.byte := le16u (x mod 65536)%Z.

Definition in_int16 (x : Z) : bool := ((-32768 <=? x) && (x <=? 32767))%Z.

(** [struct.pack('<' + 'h' * len(xs), *xs)]: [None] when a value is out of
    range ([struct.error]). *)
Definition pack_h (xs : list Z) : option (list Byte.byte) :=
  if forallb in_int16 xs then Some (flat_map le16 xs) else None.

(** Signed value of a 16-bit little-endian pair. *)
Definition signed16 (v : Z) : Z := if (32768 <=? v)%Z then (v - 65536)%Z else v.

(** [struct.unpack('<' + 'h' * (len(b) // 2), b)] on a buffer of even
    length. *)
Fixpoint unpack_h (bs : list Byte.byte) : list Z :=
  match bs with
  | lo :: hi :: r => signed16 (byte_Z lo + 256 * byte_Z hi)%Z :: unpack_h r
  | _ => []
  end.

Definition ascii_bytes (s : string) : list Byte.byte :=
  map (fun c => byte_of_Z (Z.of_nat (nat_of_ascii c))) (list_ascii_of_string s).

(** The 44-byte header that the [wave] module writes for PCM data
    ([_write_header], with the lengths patched on [close]). *)
Definition wav_header (nchannels sampwidth framerate datalength : Z) : list Byte.byte :=
  ascii_bytes "RIFF" ++ le32u (36 + datalength)%Z ++ ascii_bytes "WAVE"
  ++ ascii_bytes "fmt " ++ le32u 16 ++ le16u 1 ++ le16u nchannels
  ++ le32u framerate ++ le32u (nchannels * framerate * sampwidth)%Z
  ++ le16u (nchannels * sampwidth)%Z ++ le16u (sampwidth * 8)%Z
  ++ ascii_bytes "data" ++ le32u datalength.

(** The 16-bit values of [_samples_to_wav]:
    [int(max(-1.0, min(1.0, s)) * 32767)]. *)
Definition pcm_value (s : Q) : Z := RateLimit.py_int (py_max (-1) (RateLimit.py_min 1 s) * 32767).

(** The messages of the [struct.error] that [struct.pack] raises on a
    value out of the range of ['h'] and of ['L']. *)
Definition h_range_msg : text := s2l "'h' format requires -32768 <= number <= 32767".
Definition L_range_msg : text := s2l "'L' format requires 0 <= number <= 4294967295".

Definition fits_L (x : Z) : bool := ((0 <=? x) && (x <? 4294967296))%Z.

(** [_samples_to_wav(samples, sample_rate)]: the bytes, or [str(e)] of the
    exception raised.  [setframerate] raises on a rate [<= 0]; leaving the
    [with] block then closes the writer, whose header check raises
    [wave.Error('sampling rate not specified')], the exception that
    propagates.  A field of the header outside the range of ['L'] makes the
    [struct.pack] of [_write_header] raise in [writeframes], and again in
    [close]. *)
Definition samples_to_wav (samples : list Q) (sample_rate : Z) : sum text (list Byte.byte) :=
  match pack_h (map pcm_value samples) with
  | None => inl h_range_msg
  | Some pcm =>
      if (sample_rate <=? 0)%Z then inl (s2l "sampling rate not specified")
      else
        let nframes := (Z.of_nat (length pcm) / 2)%Z in
        let datalength := (nframes * 1 * 2)%Z in
        if forallb fits_L [(36 + datalength)%Z; sample_rate; (1 * sample_rate * 2)%Z; datalength]
        then inr (wav_header 1 2 sample_rate datalength ++ pcm)
        else inl L_range_msg
  end.

(** The bytes [_samples_to_wav] returns at 16 kHz when it returns (see
    [samples_to_wav_16k]). *)
Definition wav_data (samples : list Q) : list Byte.byte :=
  let pcm := flat_map le16 (map pcm_value samples) in
  wav_header 1 2 WHISPER_SAMPLE_RATE (Z.of_nat (length pcm) / 2 * 1 * 2)%Z ++ pcm.

(** The exceptions of [_parse_pcm_samples]: [struct.error] and
    [AudioFormatError], with their messages. *)
Inductive pcm_error := PcmStructError (msg : text) | PcmFormatError (msg : text).

(** [_parse_pcm_samples(pcm_data, bits_per_sample)] *)
Definition parse_pcm_samples (pcm : list Byte.byte) (bits : Z) : sum pcm_error (list Q) :=
  if (bits =? 16)%Z then
    if Nat.even (length pcm) then inr (map (fun s => inject_Z s / 32768) (unpack_h pcm))
    else inl (PcmStructError (s2l "unpack requires a buffer of "
                ++ str_int (Z.of_nat (2 * (length pcm / 2))) ++ s2l " bytes"))
  else if (bits =? 8)%Z then inr (map (fun b => (inject_Z (byte_Z b) - 128) / 128) pcm)
  else inl (PcmFormatError (s2l "Unsupported bits_per_sample: " ++ str_int bits)).

Section Parse.
(** [wave.open(io.BytesIO(wav_data), 'rb')] followed by
    [readframes(getnframes())]: the frames of a WAV file, or the message of
    the exception the [wave] module raises on it. *)
Variable wav_frames : list Byte.byte -> sum text (list Byte.byte).

(** [_parse_audio_to_samples(audio, bits_per_sample)]; the [try] of
    [_parse_wav_samples] turns every exception into [AudioFormatError]. *)
Definition parse_audio_to_samples (a : AudioData) (bits : Z) : sum pcm_error (list Q) :=
  match format a with
  | WAV =>
      let wrap m := PcmFormatError (s2l "Failed to parse WAV data: " ++ m) in
      match wav_frames (audio_data a) with
      | inl m => inl (wrap m)
      | inr raw =>
          match parse_pcm_samples raw bits with
          | inl (PcmStructError m) | inl (PcmFormatError m) => inl (wrap m)
          | inr s => inr s
          end
      end
  | _ => parse_pcm_samples (audio_data a) bits
  end.

End Parse.

(** [range(start, stop, step)] for [step > 0]. *)
Definition py_range_step (start stop step : Z) : list Z :=
  map (fun k => start + Z.of_nat k * step)%Z
      (seq 0 (Z.to_nat ((stop - start + step - 1) / step))).

(** [sum(xs)], computed exactly (the rounding of a float [sum] depends
    on the Python version). *)
Definition py_sum (xs : list Q) : Q := fold_left Qplus xs 0.

(** [_convert_to_mono(samples, channels)]: [inl] the message of the
    exception raised; the means are computed exactly. *)
Definition convert_to_mono (samples : list Q) (channels : Z) : sum text (list Q) :=
  if (channels =? 0)%Z then inl (s2l "range() arg 3 must not be zero")
  else if (channels <? 0)%Z then inr []
  else inr (map (fun i =>
                   let frame := firstn (Z.to_nat channels) (skipn (Z.to_nat i) samples) in
                   py_sum frame / inject_Z (Z.of_nat (length frame)))
                (py_range_step 0 (Z.of_nat (length samples)) channels)).

(** [samples[i]] *)
Definition py_index {A} (l : list A) (i : Z) : option A :=
  let n := Z.of_nat (length l) in
  if ((0 <=? i) && (i <? n))%Z then nth_error l (Z.to_nat i)
  else if ((- n <=? i) && (i <? 0))%Z then nth_error l (Z.to_nat (n + i))
  else None.

(** [_resample(samples, from_rate, to_rate)]: [inl] the message of the
    exception raised ([ZeroDivisionError], [IndexError]).  The ratio, the
    length and the indices are computed in binary64 ([to_rate / from_rate]
    on [int]s is correctly rounded); the interpolated values exactly. *)
Definition resample (samples : list Q) (from_rate to_rate : Z) : sum text (list Q) :=
  if (from_rate =? to_rate)%Z then inr samples
  else if (from_rate =? 0)%Z then inl (s2l "division by zero")
  else
    let ratio := Float.of_Q (inject_Z to_rate / inject_Z from_rate) in
    let n := Z.of_nat (length samples) in
    let value (i : nat) : sum text Q :=
      match Float.py_div (Float.of_Q (inject_Z (Z.of_nat i))) ratio with
      | Err e => inl (exn_msg e)
      | Ok old_index =>
          match Float.py_int old_index with
          | Err e => inl (exn_msg e)
          | Ok index_floor =>
              let index_ceil := Z.min (index_floor + 1) (n - 1) in
              let miss := inl (s2l "list index out of range") in
              if (index_floor =? index_ceil)%Z then
                match py_index samples index_floor with Some v => inr v | None => miss end
              else
                match py_index samples index_floor, py_index samples index_ceil,
                      Float.sub old_index (Float.of_Q (inject_Z index_floor)) with
                | Some a, Some b, Float.Fin fraction => inr (a * (1 - fraction) + b * fraction)
                | None, _, _ | _, None, _ => miss
                | _, _, _ => inl (s2l "the fraction of a finite index is finite")
                end
          end
      end in
    match Float.py_int (Float.mul (Float.of_Q (inject_Z n)) ratio) with
    | Err e => inl (exn_msg e)
    | Ok new_length =>
        let fix go (l : list nat) : sum text (list Q) :=
          match l with
          | [] => inr []
          | i :: r => match value i with
                      | inl m => inl m
                      | inr v => match go r with inl m => inl m | inr vs => inr (v :: vs) end
                      end
          end in
        go (seq 0 (Z.to_nat new_length))
    end.

Definition norm_error (m : text) : audio_error :=
  AudioNormalizationError (s2l "Failed to normalize audio: " ++ m).

Section Pipeline.
Variable wav_frames : list Byte.byte -> sum text (list Byte.byte).

(** The slow path of [normalize_for_whisper] up to the samples: parse,
    mix down, resample; exceptions other than [AudioFormatError] become
    [AudioNormalizationError]. *)
Definition samples_of (bits : Z) (a : AudioData) : sum audio_error (list Q) :=
  match parse_audio_to_samples wav_frames a bits with
  | inl (PcmFormatError m) => inl (AudioFormatError m)
  | inl (PcmStructError m) => inl (norm_error m)
  | inr s =>
      match (if (1 <? channels a)%Z then convert_to_mono s (channels a) else inr s) with
      | inl m => inl (norm_error m)
      | inr s =>
          match (if negb (sample_rate a =? WHISPER_SAMPLE_RATE)%Z
                 then resample s (sample_rate a) WHISPER_SAMPLE_RATE else inr s) with
          | inl m => inl (norm_error m)
          | inr s => inr s
          end
      end
  end.

(** [normalize_for_whisper(audio, bits_per_sample)] *)
Definition normalize (bits : Z) (a : AudioData) : sum audio_error AudioData :=
  normalize_for_whisper (samples_of bits) (fun s => samples_to_wav s WHISPER_SAMPLE_RATE) a.

(** [detect_silence(audio, threshold)]: [rms < threshold] with
    [rms = mean ** 0.5] is decided on the mean of squares
    ([sqrt m < t] iff [0 < t] and [m < t * t], for [m >= 0]); a parse
    failure or no samples ([ZeroDivisionError]) gives [False]. *)
Definition detect_silence (a : AudioData) (threshold : Q) : bool :=
  match parse_audio_to_samples wav_frames a 16 with
  | inl _ => false
  | inr [] => false
  | inr s =>
      let mean := py_sum (map (fun x => x * x) s) / inject_Z (Z.of_nat (length s)) in
      Qlt_bool 0 threshold && Qlt_bool mean (threshold * threshold)
  end.

End Pipeline.


End Samples.

(** ** The rest of [InMemoryEventObserver], [src/core/events.py] *)

Module ObserverOps.
Import Observer.

Definition EventType_eq_dec (a b : EventType) : {a = b} + {a <> b}.
Proof. decide equality. Defined.

Definition event_type_eqb (a b : EventType) : bool :=
  if EventType_eq_dec a b then true else false.

(** [on_event(callback)] *)
Definition on_event (o : InMemoryEventObserver) (cb : callback) : InMemoryEventObserver :=
  mkObserver (events o) (callbacks o ++ [cb]).

(** [clear()] *)
Definition clear (o : InMemoryEventObserver) : InMemoryEventObserver :=
  mkObserver [] (callbacks o).

(** [get_events_by_type(event_type)] *)
Definition get_events_by_type (o : InMemoryEventObserver) (k : EventType) : list PipelineEvent :=
  filter (fun e => event_type_eqb (event_type e) k) (events o).

Definition last_opt {A} (l : list A) : option A :=
  match rev l with [] => None | x :: _ => Some x end.

(** The [pairs] of [get_latency_breakdown]. *)
Definition stage_pairs : list (string * EventType * EventType) :=
  [("stt", STT_START, STT_COMPLETE);
   ("llm_first_token", LLM_QUERY_START, LLM_TOKEN_RECEIVED);
   ("llm_total", LLM_QUERY_START, LLM_COMPLETE);
   ("tts", TTS_START, TTS_COMPLETE);
   ("pipeline_total", PIPELINE_START, PIPELINE_COMPLETE)]%string.

(** One iteration of the loop of [get_latency_breakdown]. *)
Definition stage_latency (o : InMemoryEventObserver) (s e : EventType) : option Q :=
  match last_opt (get_events_by_type o s), last_opt (get_events_by_type o e) with
  | Some a, Some b => Some ((timestamp b - timestamp a) * 1000)%Q
  | _, _ => None
  end.

(** [get_latency_breakdown()]: the dict, in insertion order. *)
Definition get_latency_breakdown (o : InMemoryEventObserver) : list (string * Q) :=
  flat_map (fun p => let '(name, s, e) := p in
                     match stage_latency o s e with
                     | Some l => [(name, l)]
                     | None => []
                     end) stage_pairs.

(** [d.get(key)] on a dict kept as an association list. *)
Definition dict_get {V} (d : list (string * V)) (key : string) : option V :=
  option_map snd (find (fun p => String.eqb (fst p) key) d).

End ObserverOps.

(** ** The rate limiter of [WhisperSTT], [src/stt/whisper.py] *)

Module Whisper.

(** [WhisperSTT.DEFAULT_RATE_LIMIT = 50.0 / 60.0] *)
Definition DEFAULT_RATE_LIMIT : Q := (50 # 60)%Q.

(** [self._rate_limiter] built by [WhisperSTT.__init__] at loop time
    [now]: [RateLimiter(tokens_per_second=rate_limit_per_second or
    self.DEFAULT_RATE_LIMIT)]. *)
Definition rate_limiter (rate_limit_per_second : option Q) (now : Q) : RateLimit.RateLimiter :=
  let rate := match rate_limit_per_second with
              | Some r => if Qeq_bool r 0 then DEFAULT_RATE_LIMIT else r
              | None => DEFAULT_RATE_LIMIT
              end in
  RateLimit.init rate None now.

End Whisper.

(** Responses in whitespace normal form: words separated by single
    spaces, no other whitespace. *)
Fixpoint single_spaced_rest (t : text) : bool :=
  match t with
  | [] => true
  | c :: r =>
      if Ascii.eqb c " "%char
      then match r with
           | d :: _ => negb (is_space d) && single_spaced_rest r
           | [] => false
           end
      else negb (is_space c) && single_spaced_rest r
  end.

Definition single_spaced (t : text) : bool :=
  match t with
  | [] => true
  | c :: _ => negb (is_space c) && single_spaced_rest t
  end.

(** The scenario text of the spec. *)
Definition ex_scenario : text := s2l "Hello! How are you? Fine.".

(** * Claims *)

(** ** Sentence segmentation *)

(** X1. [chunker_fixed.SentenceChunker.chunk_stream]: for every minimum
    length and every token stream, the emitted sentences are contiguous
    pieces of the concatenated input that appear in it in emission order
    and do not overlap: no character is duplicated or reordered. *)
Theorem chunk_stream_pieces_in_order (m : nat) (toks : list text) :
  Emb (Fixed.chunk_stream m toks) (concat toks).
Proof.
  unfold Fixed.chunk_stream.
  destruct (FixedFacts.chunk_tokens_emb m toks []) as [x [E H]].
  destruct (Fixed.chunk_tokens m [] toks) as [out b]. simpl in E, H.
  rewrite E. unfold Fixed.flush.
  destruct (strip_piece b) as [g [h Hb]].
  destruct (strip b) as [|c s] eqn:Hs.
  - rewrite app_nil_r. apply Emb_app_r. exact H.
  - try rewrite Hs in Hb. rewrite Hb.
    replace (x ++ g ++ (c :: s) ++ h) with ((x ++ g ++ (c :: s)) ++ h)
      by (rewrite <- !app_assoc; reflexivity).
    apply Emb_app_r, Emb_snoc, H.
Qed.

(** Claim C1 (code bug).  A complete sentence whose stripped length falls
    below the minimum is lost: [_extract_sentences] compares the length of
    the unstripped candidate (" Go there." has 10 characters) and
    [chunk_stream] then drops the stripped sentence ("Go there.", 9
    characters) instead of buffering it.  Fed one character per token with
    the default minimum length 10, "Hello there! Go there. Now" comes back
    as ["Hello there!"; "Now"], whose trimmed concatenation with single
    spaces is not the input. *)
Lemma chunk_stream_drops_short_stripped :
  Fixed.chunk_stream 10 (char_tokens (s2l "Hello there! Go there. Now"))
  = [s2l "Hello there!"; s2l "Now"]
  /\ rejoin (map strip (Fixed.chunk_stream 10 (char_tokens (s2l "Hello there! Go there. Now"))))
     <> s2l "Hello there! Go there. Now".
Proof. split; [vm_compute; reflexivity | vm_compute; discriminate]. Qed.

(** The basic chunker ([chunker.py]) slices the buffer by the length of the
    stripped sentence, so a buffer with leading whitespace keeps the last
    character of the sentence it has just yielded. *)
Lemma basic_chunk_stream_repeats_terminator :
  Basic.chunk_stream 5 (char_tokens (s2l "Hello! How are you? Fine."))
  = [s2l "Hello!"; s2l "How are you?"; s2l "? Fine."].
Proof. vm_compute. reflexivity. Qed.

(** Claim C2.  Whatever the minimum sentence length, and whether the text
    arrives one character per token, as the word tokens of [MockLLM] or as
    one token, the edge-case chunker yields each of the four example
    texts as a single sentence: it never splits at "3.14", inside
    "www.example.com", at "Dr." or at the dots of "...". *)
Theorem chunker_fixed_exclusions (m : nat) :
  (forall toks, In toks (tokenizations ex_decimal) ->
     Fixed.chunk_stream m toks = [ex_decimal]) /\
  (forall toks, In toks (tokenizations ex_url) ->
     Fixed.chunk_stream m toks = [ex_url]) /\
  (forall toks, In toks (tokenizations ex_abbrev) ->
     Fixed.chunk_stream m toks = [ex_abbrev]) /\
  (forall toks, In toks (tokenizations ex_ellipsis) ->
     Fixed.chunk_stream m toks = [ex_ellipsis]).
Proof.
  repeat split; apply never_split_all; vm_compute; reflexivity.
Qed.

(** ** The orchestrator *)

Section PipelineFacts.
Import Observer Pipeline.

(** No callback of [o] raises, whatever the event. *)
Definition quiet_obs (o : InMemoryEventObserver) : Prop :=
  forall cb, In cb (callbacks o) -> forall ev, cb ev = None.

Definition quiet_state (st : state) : Prop :=
  quiet_obs (pobs st) /\ forall o, cobs st = OwnObserver o -> quiet_obs o.

(** [o] after [evs] are recorded. *)
Definition log_obs (o : InMemoryEventObserver) (evs : list PipelineEvent) : InMemoryEventObserver :=
  mkObserver (events o ++ evs) (callbacks o).

(** The pipeline's observer records [evs]. *)
Definition add_pobs (st : state) (evs : list PipelineEvent) : state :=
  mkState (log_obs (pobs st) evs) (cobs st).

(** The chunker's observer, if any, records [evs]. *)
Definition add_sentences (st : state) (evs : list PipelineEvent) : state :=
  match cobs st with
  | NoObserver => st
  | PipelineObserver => add_pobs st evs
  | OwnObserver o => mkState (pobs st) (OwnObserver (log_obs o evs))
  end.

Definition sentence_events (now : Q) (ss : list text) (final : bool) : list PipelineEvent :=
  map (fun s => sentence_event now s final) ss.

Lemma notify_quiet ev i cbs :
  (forall cb, In cb cbs -> forall ev, cb ev = None) -> snd (notify ev i cbs) = Ok tt.
Proof.
  revert i. induction cbs as [|cb cbs IH]; intros i H; [reflexivity|].
  simpl. rewrite (H cb (or_introl eq_refl)).
  specialize (IH (S i) (fun c Hc => H c (or_intror Hc))).
  destruct (notify ev (S i) cbs) as [inv r]. exact IH.
Qed.

Lemma emit_quiet o now k d :
  quiet_obs o ->
  exists inv, emit o now (inl k) (Some d) = (log_obs o [mkEvent now k d], inv, Ok tt).
Proof.
  intros H. unfold emit. simpl.
  pose proof (notify_quiet (mkEvent now k d) 0 (callbacks o) H) as N.
  destruct (notify _ 0 (callbacks o)) as [inv r]. simpl in N. subst r.
  exists inv. reflexivity.
Qed.

Lemma emit_p_quiet st now k d :
  quiet_state st -> emit_p st now k d = (add_pobs st [mkEvent now k d], Ok tt).
Proof.
  intros [H _]. unfold emit_p. destruct (emit_quiet (pobs st) now k d H) as [inv E].
  rewrite E. reflexivity.
Qed.

Lemma quiet_add_pobs st evs : quiet_state st -> quiet_state (add_pobs st evs).
Proof. intros [H1 H2]. split; [exact H1 | exact H2]. Qed.

Lemma quiet_add_sentences st evs : quiet_state st -> quiet_state (add_sentences st evs).
Proof.
  intros Hq. destruct st as [po [| |o]]; unfold add_sentences; simpl.
  - exact Hq.
  - apply quiet_add_pobs. exact Hq.
  - destruct Hq as [H1 H2]. split; [exact H1|]. simpl. intros o' Ho'.
    injection Ho' as <-. exact (H2 o eq_refl).
Qed.

Lemma log_obs_app o a b : log_obs (log_obs o a) b = log_obs o (a ++ b).
Proof. unfold log_obs. simpl. rewrite app_assoc. reflexivity. Qed.

Lemma log_obs_nil o : log_obs o [] = o.
Proof. destruct o. unfold log_obs. simpl. rewrite app_nil_r. reflexivity. Qed.

Lemma add_pobs_nil st : add_pobs st [] = st.
Proof. destruct st. unfold add_pobs. simpl. rewrite log_obs_nil. reflexivity. Qed.

Lemma add_pobs_app st a b : add_pobs (add_pobs st a) b = add_pobs st (a ++ b).
Proof. unfold add_pobs. simpl. rewrite log_obs_app. reflexivity. Qed.

Lemma add_sentences_nil st : add_sentences st [] = st.
Proof.
  destruct st as [po [| |o]]; unfold add_sentences; simpl;
    [reflexivity | apply add_pobs_nil | rewrite log_obs_nil; reflexivity].
Qed.

Lemma add_sentences_app st a b :
  add_sentences (add_sentences st a) b = add_sentences st (a ++ b).
Proof.
  destruct st as [po [| |o]]; unfold add_sentences; simpl;
    [reflexivity | apply add_pobs_app | rewrite log_obs_app; reflexivity].
Qed.

Lemma add_sentences_cobs st evs :
  cobs (add_sentences st evs) =
  match cobs st with OwnObserver o => OwnObserver (log_obs o evs) | c => c end.
Proof. destruct st as [po [| |o]]; reflexivity. Qed.


Lemma emit_sentence_quiet st now s f :
  quiet_state st -> emit_sentence st now s f = (add_sentences st [sentence_event now s f], Ok tt).
Proof.
  intros Hq. destruct st as [po [| |o]]; unfold emit_sentence, add_sentences; simpl.
  - reflexivity.
  - apply emit_p_quiet. exact Hq.
  - destruct Hq as [_ Ho]. destruct (emit_quiet o now SENTENCE_READY (sentence_data s f)
                                       (Ho o eq_refl)) as [inv E].
    rewrite E. reflexivity.
Qed.

Lemma yield_quiet now f ss : forall st,
  quiet_state st ->
  yield_sentences st now f ss = (add_sentences st (sentence_events now ss f), ss, None).
Proof.
  induction ss as [|s ss IH]; intros st Hq.
  - simpl. rewrite add_sentences_nil. reflexivity.
  - simpl. rewrite (emit_sentence_quiet st now s f Hq).
    rewrite (IH _ (quiet_add_sentences _ _ Hq)), add_sentences_app. reflexivity.
Qed.

Lemma gather_nil g : gather g [] = Ok tt.
Proof. reflexivity. Qed.

Lemma gather_if g p ds :
  match ds with [] => Ok tt | _ => gather g (create_tasks p 0 ds) end
  = gather g (create_tasks p 0 ds).
Proof. destruct ds; reflexivity. Qed.

(** [_process_text_query] when no callback raises. *)
Lemma ptq_quiet p st now t :
  quiet_state st ->
  process_text_query p st now t =
  let '(out, b) := Fixed.chunk_tokens (min_len p) [] (llm_tokens p t) in
  match llm_error p t with
  | Some e => (add_sentences st (sentence_events now out false), out, Err e)
  | None =>
      (add_sentences st (sentence_events now out false
                         ++ sentence_events now (Fixed.flush b) true),
       out ++ Fixed.flush b,
       gather (gather_at p) (create_tasks p 0 (out ++ Fixed.flush b)))
  end.
Proof.
  intros Hq. unfold process_text_query.
  destruct (Fixed.chunk_tokens (min_len p) [] (llm_tokens p t)) as [out b].
  rewrite (yield_quiet now false out st Hq).
  destruct (llm_error p t) as [e|]; [reflexivity|].
  rewrite (yield_quiet now true _ _ (quiet_add_sentences _ _ Hq)), add_sentences_app.
  rewrite gather_if. reflexivity.
Qed.

Lemma handle_quiet st now e :
  quiet_state st ->
  handle st now e = (if is_exception e then add_pobs st [error_event now e] else st, e).
Proof.
  intros Hq. unfold handle. destruct (is_exception e); [|reflexivity].
  rewrite emit_p_quiet by exact Hq. reflexivity.
Qed.

Lemma nth_create_tasks p ds : forall i j,
  nth_error (create_tasks p i ds) j = option_map (tts p (i + j)) (nth_error ds j).
Proof.
  induction ds as [|s ds IH]; intros i [|j]; simpl; try reflexivity.
  - rewrite Nat.add_0_r. reflexivity.
  - rewrite IH. f_equal. f_equal. lia.
Qed.

Lemma gather_loop_spec g outs : forall best,
  match gather_loop g best outs with
  | None => best = None /\ forall j o, nth_error outs j = Some o -> raised o = None
  | Some (k, e) =>
      (best = Some (k, e)
       /\ forall j o, nth_error outs j = Some o -> raised o <> None -> k <= key g o)
      \/ (exists i o, nth_error outs i = Some o /\ raised o = Some e /\ k = key g o
          /\ (forall kb eb, best = Some (kb, eb) -> k < kb)
          /\ forall j o', nth_error outs j = Some o' -> raised o' <> None ->
               k < key g o' \/ (k = key g o' /\ i <= j))
  end.
Proof.
  induction outs as [|o rest IH]; intros best.
  - simpl. destruct best as [[k e]|].
    + left. split; [reflexivity|]. intros [|j] o H; discriminate.
    + split; [reflexivity|]. intros [|j] o H; discriminate.
  - assert (New : forall e0 kb0, raised o = Some e0 ->
              (forall kb eb, best = Some (kb, eb) -> key g o < kb) ->
              kb0 = key g o ->
              match gather_loop g (Some (kb0, e0)) rest with
              | None => best = None /\ forall j o', nth_error (o :: rest) j = Some o' -> raised o' = None
              | Some (k, e) =>
                  (best = Some (k, e)
                   /\ forall j o', nth_error (o :: rest) j = Some o' -> raised o' <> None -> k <= key g o')
                  \/ (exists i o', nth_error (o :: rest) i = Some o' /\ raised o' = Some e
                      /\ k = key g o'
                      /\ (forall kb eb, best = Some (kb, eb) -> k < kb)
                      /\ forall j o'', nth_error (o :: rest) j = Some o'' -> raised o'' <> None ->
                           k < key g o'' \/ (k = key g o'' /\ i <= j))
              end).
    { intros e0 kb0 Ro Hlt ->. specialize (IH (Some (key g o, e0))).
      destruct (gather_loop g (Some (key g o, e0)) rest) as [[k e]|].
      - right. destruct IH as [[Hb Hall]|[i [o' [Hi [Hr [Hk [Hbest Hall]]]]]]].
        + injection Hb as <- <-. exists 0, o. repeat split; [exact Ro | exact Hlt |].
          intros [|j] o'' H Hn.
          * simpl in H. injection H as <-. right. split; [reflexivity | lia].
          * specialize (Hall j o'' H Hn). lia.
        + specialize (Hbest _ _ eq_refl).
          exists (S i), o'. repeat split; [exact Hi | exact Hr | exact Hk | |].
          * intros kb eb Hb. specialize (Hlt kb eb Hb). lia.
          * intros [|j] o'' H Hn.
            -- simpl in H. injection H as <-. left. lia.
            -- destruct (Hall j o'' H Hn) as [L|[L1 L2]]; [left; exact L | right; split; [exact L1 | lia]].
      - destruct IH as [Hb _]. discriminate. }
    simpl. destruct (raised o) as [e0|] eqn:Ro.
    + destruct best as [[kb eb]|].
      * destruct (key g o <? kb) eqn:Hlt.
        -- apply Nat.ltb_lt in Hlt. apply (New e0); [reflexivity | | reflexivity].
           intros kb' eb' H. injection H as <- <-. exact Hlt.
        -- apply Nat.ltb_ge in Hlt. specialize (IH (Some (kb, eb))).
           destruct (gather_loop g (Some (kb, eb)) rest) as [[k e]|].
           ++ destruct IH as [[Hb Hall]|[i [o' [Hi [Hr [Hk [Hbest Hall]]]]]]].
              ** left. split; [exact Hb|]. injection Hb as -> ->.
                 intros [|j] o'' H Hn; [simpl in H; injection H as <-; exact Hlt|].
                 exact (Hall j o'' H Hn).
              ** right. exists (S i), o'. repeat split; [exact Hi | exact Hr | exact Hk | exact Hbest |].
                 specialize (Hbest _ _ eq_refl).
                 intros [|j] o'' H Hn.
                 --- simpl in H. injection H as <-. left. lia.
                 --- destruct (Hall j o'' H Hn) as [L|[L1 L2]];
                       [left; exact L | right; split; [exact L1 | lia]].
           ++ destruct IH as [Hb _]. discriminate.
      * apply (New e0); [reflexivity | intros kb eb H; discriminate | reflexivity].
    + specialize (IH best). destruct (gather_loop g best rest) as [[k e]|].
      * destruct IH as [[Hb Hall]|[i [o' [Hi [Hr [Hk [Hbest Hall]]]]]]].
        -- left. split; [exact Hb|]. intros [|j] o'' H Hn.
           ++ simpl in H. injection H as <-. congruence.
           ++ exact (Hall j o'' H Hn).
        -- right. exists (S i), o'. repeat split; [exact Hi | exact Hr | exact Hk | exact Hbest |].
           intros [|j] o'' H Hn.
           ++ simpl in H. injection H as <-. congruence.
           ++ destruct (Hall j o'' H Hn) as [L|[L1 L2]];
                [left; exact L | right; split; [exact L1 | lia]].
      * destruct IH as [Hb Hall]. split; [exact Hb|]. intros [|j] o'' H.
        -- simpl in H. injection H as <-. exact Ro.
        -- exact (Hall j o'' H).
Qed.

(** [gather]: success when no task fails; otherwise the exception of a
    failing task that is first by [key], then by dispatch order. *)
Lemma gather_spec g outs :
  (gather g outs = Ok tt /\ forall j o, nth_error outs j = Some o -> raised o = None)
  \/ (exists i o e, gather g outs = Err e /\ nth_error outs i = Some o /\ raised o = Some e
      /\ forall j o', nth_error outs j = Some o' -> raised o' <> None ->
           key g o < key g o' \/ (key g o = key g o' /\ i <= j)).
Proof.
  pose proof (gather_loop_spec g outs None) as H. unfold gather.
  destruct (gather_loop g None outs) as [[k e]|].
  - right. destruct H as [[Hb _]|[i [o [Hi [Hr [Hk [_ Hall]]]]]]]; [discriminate|].
    exists i, o, e. subst k. repeat split; assumption.
  - left. destruct H as [_ Hall]. split; [reflexivity | exact Hall].
Qed.


Lemma filter_sentence_events now ss f : filter is_error (sentence_events now ss f) = [].
Proof. induction ss as [|s ss IH]; [reflexivity | exact IH]. Qed.

End PipelineFacts.

Section Scenario.
Import Observer Pipeline.



(** Every synthesis succeeds, at time 0. *)
Definition tts_ok (i : nat) (s : text) : tts_outcome := mkTts 0 None.

Definition scenario_chars : providers :=
  {| llm_tokens := fun _ => char_tokens ex_scenario; llm_error := fun _ => None;
     gather_at := 0; tts := tts_ok; min_len := 5 |}.


(** A fresh [InMemoryEventObserver] shared by the pipeline and the
    chunker. *)
Definition shared_observer : state := mkState (mkObserver [] []) PipelineObserver.

Lemma quiet_fresh (c : chunker_observer) :
  (forall o, c = OwnObserver o -> quiet_obs o) -> quiet_state (mkState (mkObserver [] []) c).
Proof. intros H. split; [intros cb [] | exact H]. Qed.



End Scenario.

Section AudioRun.
Import Observer Pipeline.

(** The state after [_process_text_query] when no callback raises: the
    chunker's observer has recorded sentence events only, and a failure is
    the exception of the token stream or of a synthesis. *)
Lemma ptq_shape p st now tr :
  quiet_state st ->
  exists sevs, fst (fst (process_text_query p st now tr)) = add_sentences st sevs
    /\ filter is_error sevs = []
    /\ forall e, snd (process_text_query p st now tr) = Err e ->
       llm_error p tr = Some e \/ exists i s, raised (tts p i s) = Some e.
Proof.
  intros Hq. rewrite (ptq_quiet p st now tr Hq).
  destruct (Fixed.chunk_tokens (min_len p) [] (llm_tokens p tr)) as [out b].
  destruct (llm_error p tr) as [e0|].
  - exists (sentence_events now out false). split; [reflexivity|].
    split; [apply filter_sentence_events|]. intros e H. injection H as ->. left. reflexivity.
  - eexists. split; [reflexivity|].
    split; [rewrite filter_app, !filter_sentence_events; reflexivity|].
    intros e H. simpl in H. right.
    destruct (gather_spec (gather_at p) (create_tasks p 0 (out ++ Fixed.flush b)))
      as [[G _]|[i [o [e' [G [Hi [Hr _]]]]]]]; rewrite G in H; [discriminate|].
    injection H as <-. rewrite nth_create_tasks in Hi.
    destruct (nth_error _ i) as [s|]; [|discriminate]. injection Hi as <-.
    exists i, s. exact Hr.
Qed.






Lemma quiet_shared : quiet_state shared_observer.
Proof. apply quiet_fresh. intros o H. discriminate. Qed.




End AudioRun.

(** ** Retry *)

Section RetryDefs.
Import Retry.

(** The callbacks around a failed attempt return normally: [func] has a
    [__name__], [str(e)] returns and [on_retry] returns (or is absent). *)
Definition quiet (func_name : result text) (str_exn : exn -> option exn)
    (on_retry : exn -> nat -> option exn) : Prop :=
  (exists nm, func_name = Ok nm)
  /\ (forall e, str_exn e = None) /\ (forall e n, on_retry e n = None).

(** The argument of [asyncio.sleep] after the failed attempt [i], when
    [get_delay_ms] returns. *)
Definition sleep_of (config : RetryConfig) (rand : nat -> Q) (i : nat) : option Float.fval :=
  match get_delay_ms config i (rand i) with
  | Ok d => Some (Float.div d (Float.Fin 1000))
  | Err _ => None
  end.

(** For every attempt [i < N - 1], [get_delay_ms] returns and the sleep
    that follows is not infinite. *)
Definition delays_ok (config : RetryConfig) (rand : nat -> Q) (N : nat) : Prop :=
  forall i, i < N - 1 -> exists s, sleep_of config rand i = Some s /\ s <> Float.PInf.

(** The [on_retry] calls after the failed attempts [from .. from + n - 1]. *)
Definition retry_calls_from (errs : nat -> exn) (from n : nat) : list (exn * nat) :=
  map (fun i => (errs i, S i)) (seq from n).

(** The exception raised by invocation [i], if it raises. *)
Definition raised_by {A} (func : nat -> outcome A) (i : nat) : exn :=
  match func i with Raise e => e | Return _ => runtime_error end.

End RetryDefs.

Section RetryLemmas.
Import Retry.
Context {A : Type}.
Variables (func : nat -> outcome A) (retryable : exn -> bool) (rand : nat -> Q)
          (func_name : result text) (str_exn : exn -> option exn)
          (on_retry : exn -> nat -> option exn) (config : RetryConfig)
          (errs : nat -> exn) (N : nat).
Hypothesis Hmax : max_attempts config = Z.of_nat N.
Hypothesis Hquiet : quiet func_name str_exn on_retry.
Hypothesis Hdelays : delays_ok config rand N.

Local Abbreviation loop := (retry_loop func retryable rand func_name str_exn on_retry config).

Lemma retry_loop_last a k last e :
  S a = N -> func a = Raise e -> retryable e = true ->
  loop a (S k) last = stop (S a) (Err e).
Proof.
  intros Ha He Hr. destruct Hquiet as [[nm Hn] _]. simpl. rewrite He, Hr, Hmax.
  replace (Z.of_nat a =? Z.of_nat N - 1)%Z with true by (symmetry; apply Z.eqb_eq; lia).
  rewrite Hn. reflexivity.
Qed.

Lemma retry_loop_retry a k last e :
  S a < N -> func a = Raise e -> retryable e = true ->
  exists s, sleep_of config rand a = Some s /\
  loop a (S k) last =
    mkRun (r_result (loop (S a) k (Some e))) (r_calls (loop (S a) k (Some e)))
          ((e, S a) :: r_retries (loop (S a) k (Some e)))
          (s :: r_sleeps (loop (S a) k (Some e))).
Proof.
  intros Ha He Hr. destruct Hquiet as [[nm Hn] [Hs Ho]].
  destruct (Hdelays a ltac:(lia)) as [s [Es Hinf]].
  exists s. split; [exact Es|]. unfold sleep_of in Es.
  simpl. rewrite He, Hr, Hmax.
  replace (Z.of_nat a =? Z.of_nat N - 1)%Z with false by (symmetry; apply Z.eqb_neq; lia).
  destruct (get_delay_ms config a (rand a)) as [d|]; [|discriminate].
  injection Es as <-. rewrite Hn, Hs, Ho.
  destruct (Float.div d (Float.Fin 1000)); [reflexivity | congruence | reflexivity | reflexivity].
Qed.

Lemma retry_loop_all_fail : forall k a last,
  a + k = N -> 1 <= k ->
  (forall i, a <= i < N -> func i = Raise (errs i) /\ retryable (errs i) = true) ->
  r_result (loop a k last) = Some (Err (errs (N - 1)))
  /\ r_calls (loop a k last) = N
  /\ r_retries (loop a k last) = retry_calls_from errs a (k - 1)
  /\ map Some (r_sleeps (loop a k last)) = map (sleep_of config rand) (seq a (k - 1)).
Proof.
  induction k as [|k IH]; intros a last Hak Hk Hf; [lia|].
  destruct (Hf a ltac:(lia)) as [He Hr].
  destruct (Nat.eq_dec (S a) N) as [Ha|Ha].
  - rewrite (retry_loop_last a k last (errs a) Ha He Hr).
    replace (N - 1) with a by lia. replace (S k - 1) with 0 by lia.
    repeat split; simpl; try reflexivity; lia.
  - destruct (retry_loop_retry a k last (errs a) ltac:(lia) He Hr) as [s [Es E]].
    rewrite E. simpl.
    destruct (IH (S a) (Some (errs a)) ltac:(lia) ltac:(lia)) as [E1 [E2 [E3 E4]]];
      [intros i Hi; apply Hf; lia|].
    rewrite E1, E2, E3, E4, <- Es. unfold retry_calls_from.
    replace (k - 0) with (S (k - 1)) by lia. repeat split; reflexivity.
Qed.

(** The invocation [j] ends the loop: it returns, or raises an exception
    that is not retryable. *)
Definition stops_at (j : nat) : Prop :=
  (exists v, func j = Return v) \/
  (exists e, func j = Raise e /\ retryable e = false).

Lemma retry_loop_stop : forall k a last j,
  a + k = N -> a <= j < N ->
  (forall i, a <= i < j -> func i = Raise (errs i) /\ retryable (errs i) = true) ->
  stops_at j ->
  r_result (loop a k last) =
    Some (match func j with Return v => Ok v | Raise e => Err e end)
  /\ r_calls (loop a k last) = S j
  /\ r_retries (loop a k last) = retry_calls_from errs a (j - a)
  /\ map Some (r_sleeps (loop a k last)) = map (sleep_of config rand) (seq a (j - a)).
Proof.
  induction k as [|k IH]; intros a last j Hak Hj Hf Hs; [lia|].
  destruct (Nat.eq_dec a j) as [<-|Hne].
  - rewrite Nat.sub_diag. simpl.
    destruct Hs as [[v Hv]|[e [He Hr]]].
    + rewrite Hv. repeat split; reflexivity.
    + rewrite He, Hr. repeat split; reflexivity.
  - destruct (Hf a ltac:(lia)) as [He Hr].
    destruct (retry_loop_retry a k last (errs a) ltac:(lia) He Hr) as [s [Es E]].
    rewrite E. simpl.
    destruct (IH (S a) (Some (errs a)) j ltac:(lia) ltac:(lia)) as [E1 [E2 [E3 E4]]];
      [intros i Hi; apply Hf; lia | exact Hs |].
    rewrite E1, E2, E3, E4, <- Es. unfold retry_calls_from.
    replace (j - a) with (S (j - S a)) by lia. repeat split; reflexivity.
Qed.

End RetryLemmas.

Section RetryClaims.
Import Retry.

(** Claim C4.  Let [max_attempts] be [N >= 1], and let the callbacks
    around a failure return normally ([func.__name__] exists, [str(e)] and
    [on_retry] return) and [get_delay_ms] return, with a finite sleep, for
    every attempt before the last.  If every invocation of the operation
    raises a retryable exception, [retry_async] invokes it exactly [N]
    times and raises the very exception of the [N]-th invocation.  If the
    invocations before the [j]-th ([j < N], from 0) raise retryable
    exceptions and the [j]-th returns [v], [retry_async] returns [v] after
    exactly [j + 1] invocations. *)
Theorem retry_async_attempts {A} (func : nat -> outcome A) retryable rand
    func_name str_exn on_retry config N :
  max_attempts config = Z.of_nat N -> 1 <= N ->
  quiet func_name str_exn on_retry -> delays_ok config rand N ->
  ((forall i, i < N -> exists e, func i = Raise e /\ retryable e = true) ->
   r_calls (retry_async func retryable rand func_name str_exn on_retry config) = N
   /\ exists e, func (N - 1) = Raise e
      /\ r_result (retry_async func retryable rand func_name str_exn on_retry config)
         = Some (Err e)) /\
  (forall j v, j < N ->
   (forall i, i < j -> exists e, func i = Raise e /\ retryable e = true) ->
   func j = Return v ->
   r_result (retry_async func retryable rand func_name str_exn on_retry config) = Some (Ok v)
   /\ r_calls (retry_async func retryable rand func_name str_exn on_retry config) = S j).
Proof.
  intros Hmax HN Hq Hd. unfold retry_async. rewrite Hmax, Nat2Z.id.
  assert (Herrs : forall i, (exists e, func i = Raise e /\ retryable e = true) ->
                  func i = Raise (raised_by func i) /\ retryable (raised_by func i) = true).
  { intros i [e [He Hr]]. unfold raised_by. rewrite He. split; [reflexivity | exact Hr]. }
  split.
  - intros Hfail.
    destruct (retry_loop_all_fail func retryable rand func_name str_exn on_retry config
                (raised_by func) N Hmax Hq Hd N 0 None) as [E1 [E2 _]]; try lia.
    + intros i Hi. apply Herrs, Hfail. lia.
    + split; [exact E2|]. exists (raised_by func (N - 1)). split; [|exact E1].
      apply Herrs, Hfail. lia.
  - intros j v Hj Hfail Hv.
    destruct (retry_loop_stop func retryable rand func_name str_exn on_retry config
                (raised_by func) N Hmax Hq Hd N 0 None j) as [E1 [E2 _]]; try lia.
    + intros i Hi. apply Herrs, Hfail. lia.
    + left. exists v. exact Hv.
    + rewrite Hv in E1. split; assumption.
Qed.

Definition timeout_exn : exn := mkExn (s2l "TimeoutError") [].

(** An operation that times out on its first two invocations and answers
    42 on the third. *)
Definition flaky (i : nat) : outcome nat :=
  if i <? 2 then Raise timeout_exn else Return 42.

Definition always_failing (i : nat) : outcome nat := Raise timeout_exn.

Definition op_name : result text := Ok (s2l "call_api").

Definition never_raises (e : exn) : option exn := None.

Definition no_callback (e : exn) (n : nat) : option exn := None.

Definition five_attempts : RetryConfig :=
  {| max_attempts := 5; initial_delay_ms := 100; max_delay_ms := 10000;
     exponential_base := 2; jitter := false |}.

Lemma retry_async_attempts_witness :
  (r_calls (retry_async always_failing (fun _ => true) (fun _ => 0%Q) op_name never_raises
              no_callback default_config) = 3
   /\ exists e, always_failing 2 = Raise e
      /\ r_result (retry_async always_failing (fun _ => true) (fun _ => 0%Q) op_name
                     never_raises no_callback default_config) = Some (Err e))
  /\ r_result (retry_async flaky (fun _ => true) (fun _ => 0%Q) op_name never_raises
                 no_callback five_attempts) = Some (Ok 42)
  /\ r_calls (retry_async flaky (fun _ => true) (fun _ => 0%Q) op_name never_raises
                 no_callback five_attempts) = 3.
Proof.
  split.
  - apply (retry_async_attempts always_failing (fun _ => true) (fun _ => 0%Q) op_name
             never_raises no_callback default_config 3 eq_refl ltac:(lia)).
    + split; [eexists; reflexivity | split; reflexivity].
    + intros i Hi. destruct i as [|[|i]]; [| | lia];
        eexists; (split; [vm_compute; reflexivity | vm_compute; discriminate]).
    + intros i _. exists timeout_exn. split; reflexivity.
  - apply (retry_async_attempts flaky (fun _ => true) (fun _ => 0%Q) op_name
             never_raises no_callback five_attempts 5 eq_refl ltac:(lia));
      [ split; [eexists; reflexivity | split; reflexivity]
      | | lia | | reflexivity].
    + intros i Hi. destruct i as [|[|[|[|i]]]]; [| | | | lia];
        eexists; (split; [vm_compute; reflexivity | vm_compute; discriminate]).
    + intros i Hi. exists timeout_exn. unfold flaky.
      replace (i <? 2) with true by (symmetry; apply Nat.ltb_lt; lia). split; reflexivity.
Defined.

Definition attribute_error : exn :=
  mkExn (s2l "AttributeError")
        (s2l "'functools.partial' object has no attribute '__name__'").

Definition callback_error : exn := mkExn (s2l "RuntimeError") (s2l "metrics sink down").

(** [RetryConfig(max_attempts=4, exponential_base=2.0 ** 700, jitter=False)] *)
Definition huge_base : RetryConfig :=
  {| max_attempts := 4; initial_delay_ms := 100; max_delay_ms := 10000;
     exponential_base := inject_Z (2 ^ 700); jitter := false |}.

(** Claim C4 fails without the conditions on the callbacks and the delay:
    with [exponential_base = 2.0 ** 700] and four attempts that all fail,
    [get_delay_ms(2)] raises [OverflowError] after the third invocation;
    an operation without [__name__] (a [functools.partial]) gets one
    invocation and an [AttributeError]; an [on_retry] that raises ends the
    loop after one invocation with the callback's exception. *)
Lemma retry_async_callbacks_raise :
  r_calls (retry_async always_failing (fun _ => true) (fun _ => 0%Q) op_name never_raises
             no_callback huge_base) = 3
  /\ r_result (retry_async always_failing (fun _ => true) (fun _ => 0%Q) op_name never_raises
                no_callback huge_base) = Some (Err Float.overflow_error)
  /\ r_calls (retry_async always_failing (fun _ => true) (fun _ => 0%Q) (Err attribute_error)
                never_raises no_callback default_config) = 1
  /\ r_result (retry_async always_failing (fun _ => true) (fun _ => 0%Q) (Err attribute_error)
                never_raises no_callback default_config) = Some (Err attribute_error)
  /\ r_calls (retry_async always_failing (fun _ => true) (fun _ => 0%Q) op_name never_raises
                (fun _ _ => Some callback_error) default_config) = 1
  /\ r_result (retry_async always_failing (fun _ => true) (fun _ => 0%Q) op_name never_raises
                (fun _ _ => Some callback_error) default_config) = Some (Err callback_error).
Proof. vm_compute. repeat split. Qed.

End RetryClaims.

(** ** Event bus *)

Section ObserverClaims.
Import Observer.

Lemma notify_spec ev cbs : forall i,
  notify ev i cbs =
  match first_raise ev i cbs with
  | None => (seq i (length cbs), Ok tt)
  | Some (j, e) => (seq i (S (j - i)), Err e)
  end /\ (forall j e, first_raise ev i cbs = Some (j, e) -> i <= j).
Proof.
  induction cbs as [|cb rest IH]; intros i; simpl; [split; [reflexivity | discriminate]|].
  destruct (cb ev) as [e|].
  - split; [|intros j e' H; injection H as <- <-; lia].
    rewrite Nat.sub_diag. reflexivity.
  - destruct (IH (S i)) as [E Hle]. rewrite E. split.
    + destruct (first_raise ev (S i) rest) as [[j e]|]; [|reflexivity].
      specialize (Hle j e eq_refl).
      replace (j - i) with (S (j - S i)) by lia. reflexivity.
    + intros j e H. specialize (Hle j e H). lia.
Qed.

(** Claim C5 (corrected).  [emit] with an [EventType] appends exactly one
    event, stamped [now], with the payload (or an empty one), and keeps it
    whatever the callbacks do.  It then invokes the callbacks synchronously
    in registration order: if none raises, all of them run and [emit]
    returns normally; if the [j]-th is the first to raise [e], the callbacks
    0..j have run, the later ones are not invoked and [emit] raises [e]. *)
Theorem emit_records_then_notifies (o : InMemoryEventObserver) (now : Q)
    (k : EventType) (d : option (list (string * value))) :
  let ev := mkEvent now k (match d with Some l => l | None => [] end) in
  events (fst (fst (emit o now (inl k) d))) = events o ++ [ev] /\
  match first_raise ev 0 (callbacks o) with
  | None => snd (fst (emit o now (inl k) d)) = seq 0 (length (callbacks o))
            /\ snd (emit o now (inl k) d) = Ok tt
  | Some (j, e) => snd (fst (emit o now (inl k) d)) = seq 0 (S j)
                   /\ snd (emit o now (inl k) d) = Err e
  end.
Proof.
  intros ev. unfold emit. fold ev.
  destruct (notify_spec ev (callbacks o) 0) as [E _].
  destruct (notify ev 0 (callbacks o)) as [inv r] eqn:Hn. simpl.
  split; [reflexivity|].
  destruct (first_raise ev 0 (callbacks o)) as [[j e]|];
    injection E as -> ->; simpl; [rewrite Nat.sub_0_r|]; split; reflexivity.
Qed.

Definition raising_callback : callback :=
  fun _ => Some (mkExn (s2l "RuntimeError") (s2l "listener failed")).

Definition quiet_callback : callback := fun _ => None.

Definition two_listeners : InMemoryEventObserver :=
  mkObserver [] [raising_callback; quiet_callback].

(** Claim C5, counterexample: with a raising listener registered before a
    second one, [emit] records the event but raises, and the second
    listener is never invoked. *)
Lemma emit_failing_listener_stops :
  let '(o', invoked, r) := emit two_listeners 0 (inl PIPELINE_START) None in
  length (events o') = 1 /\ invoked = [0]
  /\ r = Err (mkExn (s2l "RuntimeError") (s2l "listener failed")).
Proof. vm_compute. repeat split. Qed.

End ObserverClaims.

(** ** Audio validation *)

Section AudioClaims.
Import Audio.
Local Open Scope Q_scope.

(** Claim C6.  A buffer whose [duration_ms] is 50 fails validation with
    [AudioTooShortError(50, 100)]; a buffer of 26 MiB (26 * 1024 * 1024
    bytes) whose duration is unknown or at least 100 ms fails with
    [AudioTooLongError(size_mb, 25)] where [size_mb] equals 26.
    [normalize_for_whisper] validates the input itself on the fast path
    (input already 16 kHz mono WAV) and the normalized output otherwise. *)
Theorem validate_audio_for_whisper_limits :
  (forall a, duration_ms a = Some 50 ->
     validate_audio_for_whisper a = Some (AudioTooShortError 50 100)) /\
  (forall a, size_bytes a = 27262976%Z ->
     (forall d, duration_ms a = Some d -> 100 <= d) ->
     exists s, validate_audio_for_whisper a = Some (AudioTooLongError s 25) /\ s == 26) /\
  (forall samples_of samples_to_wav a, is_normalized a = true ->
     normalize_for_whisper samples_of samples_to_wav a
     = match validate_audio_for_whisper a with Some e => inl e | None => inr a end) /\
  (forall samples_of samples_to_wav a samples wav,
     is_normalized a = false -> samples_of a = inr samples ->
     samples_to_wav samples = inr wav -> wav <> [] ->
     normalize_for_whisper samples_of samples_to_wav a
     = match validate_audio_for_whisper (normalized_audio wav samples) with
       | Some e => inl e
       | None => inr (normalized_audio wav samples)
       end).
Proof.
  split; [|split; [|split]].
  - intros a Hd. unfold validate_audio_for_whisper. rewrite Hd. reflexivity.
  - intros a Hs Hd. unfold validate_audio_for_whisper.
    assert (Hshort : match duration_ms a with
                     | Some d => if truthy (duration_ms a) && Qlt_bool d WHISPER_MIN_DURATION_MS
                                 then Some (AudioTooShortError d WHISPER_MIN_DURATION_MS)
                                 else None
                     | None => None end = None).
    { destruct (duration_ms a) as [d|] eqn:E; [|reflexivity].
      specialize (Hd d eq_refl). unfold Qlt_bool, WHISPER_MIN_DURATION_MS.
      replace (Qle_bool 100 d) with true by (symmetry; apply Qle_bool_iff; exact Hd).
      rewrite andb_false_r. reflexivity. }
    rewrite Hshort, Hs.
    exists (inject_Z 27262976 / (1024 * 1024))%Q.
    split; [reflexivity | vm_compute; reflexivity].
  - intros samples_of samples_to_wav a Hn. unfold normalize_for_whisper. rewrite Hn.
    reflexivity.
  - intros samples_of samples_to_wav a samples wav Hn Hs Hw Hne.
    unfold normalize_for_whisper. rewrite Hn, Hs, Hw. cbv zeta.
    destruct (audio_data (normalized_audio wav samples)) eqn:E.
    + exfalso. apply Hne. exact E.
    + reflexivity.
Qed.

Definition audio_50ms : AudioData :=
  mkAudio [Byte.x00; Byte.x00] 16000 WAV 1 (Some 50).

Definition audio_26mb : AudioData :=
  mkAudio (repeat Byte.x00 (Z.to_nat 27262976)) 16000 WAV 1 None.

Definition audio_48k : AudioData :=
  mkAudio [Byte.x00; Byte.x00] 48000 WAV 2 None.

Lemma validate_audio_for_whisper_limits_witness :
  validate_audio_for_whisper audio_50ms = Some (AudioTooShortError 50 100)
  /\ (exists s, validate_audio_for_whisper audio_26mb = Some (AudioTooLongError s 25) /\ s == 26)
  /\ normalize_for_whisper (fun _ => inl (AudioFormatError [])) (fun _ => inr []) audio_50ms
     = inl (AudioTooShortError 50 100)
  /\ normalize_for_whisper (fun _ => inr [0%Q]) (fun _ => inr [Byte.x00; Byte.x00]) audio_48k
     = match validate_audio_for_whisper (normalized_audio [Byte.x00; Byte.x00] [0%Q]) with
       | Some e => inl e
       | None => inr (normalized_audio [Byte.x00; Byte.x00] [0%Q])
       end.
Proof.
  destruct validate_audio_for_whisper_limits as [H1 [H2 [H3 H4]]].
  split; [|split; [|split]].
  - apply H1. reflexivity.
  - apply H2.
    + unfold size_bytes. change (audio_data audio_26mb) with (repeat Byte.x00 (Z.to_nat 27262976)).
      rewrite repeat_length. apply Z2Nat.id. lia.
    + intros d Hd. discriminate Hd.
  - rewrite H3 by reflexivity. rewrite (H1 audio_50ms eq_refl). reflexivity.
  - apply H4; [reflexivity | reflexivity | reflexivity | discriminate].
Defined.

(** Claim C10.  A buffer whose [duration_ms] is [None] or 0 never fails
    with [AudioTooShortError], whatever its bytes; it passes validation as
    soon as its size is at most 25 MiB and its format is WAV, FLAC or
    MP3. *)
Theorem validate_unknown_duration_skips_short (a : AudioData) :
  (duration_ms a = None \/ exists z, duration_ms a = Some z /\ z == 0) ->
  (forall d m, validate_audio_for_whisper a <> Some (AudioTooShortError d m)) /\
  (inject_Z (size_bytes a) / (1024 * 1024) <= 25 ->
   (format a = WAV \/ format a = FLAC \/ format a = MP3) ->
   validate_audio_for_whisper a = None).
Proof.
  intros Hd.
  assert (Hshort : match duration_ms a with
                   | Some d => if truthy (duration_ms a) && Qlt_bool d WHISPER_MIN_DURATION_MS
                               then Some (AudioTooShortError d WHISPER_MIN_DURATION_MS)
                               else None
                   | None => None end = None).
  { destruct Hd as [E|[z [E Hz]]]; rewrite E; [reflexivity|].
    unfold truthy. replace (Qeq_bool z 0) with true
      by (symmetry; apply Qeq_bool_iff; exact Hz). reflexivity. }
  unfold validate_audio_for_whisper. rewrite Hshort. split.
  - intros d m.
    destruct (Qlt_bool WHISPER_MAX_FILE_SIZE_MB _); [discriminate|].
    destruct (format a); discriminate.
  - intros Hs Hf.
    replace (Qlt_bool WHISPER_MAX_FILE_SIZE_MB _) with false.
    + destruct Hf as [E|[E|E]]; rewrite E; reflexivity.
    + unfold Qlt_bool. symmetry. apply negb_false_iff, Qle_bool_iff. exact Hs.
Qed.

Definition audio_tiny_unknown : AudioData :=
  mkAudio [Byte.x00; Byte.x00] 16000 WAV 1 None.

Definition audio_tiny_zero : AudioData :=
  mkAudio [Byte.x00; Byte.x00] 16000 FLAC 1 (Some 0).

Lemma validate_unknown_duration_skips_short_witness :
  validate_audio_for_whisper audio_tiny_unknown = None
  /\ validate_audio_for_whisper audio_tiny_zero = None.
Proof.
  split.
  - apply (validate_unknown_duration_skips_short audio_tiny_unknown (or_introl eq_refl)).
    + vm_compute. discriminate.
    + left. reflexivity.
  - apply (validate_unknown_duration_skips_short audio_tiny_zero).
    + right. exists 0%Q. split; reflexivity.
    + vm_compute. discriminate.
    + right. left. reflexivity.
Defined.

End AudioClaims.

(** ** Rate limiter *)

Section RateLimitClaims.
Import RateLimit.
Local Open Scope Q_scope.

Lemma py_min_le_l a b : py_min a b <= a.
Proof.
  unfold py_min. destruct (Qle_bool a b) eqn:E; [apply Qle_refl|].
  apply Qlt_le_weak, Qnot_le_lt. intros H. apply Qle_bool_iff in H. congruence.
Qed.


Lemma acquire_never sleep n : forall k i rl now,
  (bucket_size rl < n)%Z -> acquire_loop sleep k i rl now n = None.
Proof.
  induction k as [|k IH]; intros i rl now Hb; simpl;
  (replace (Qle_bool _ _) with false;
   [| symmetry; apply not_true_iff_false; intros H; apply Qle_bool_iff in H;
      assert (Hle := py_min_le_l (inject_Z (bucket_size rl))
                      (tokens rl + (now - last_update rl) * tokens_per_second rl));
      assert (Hz : inject_Z n <= inject_Z (bucket_size rl)) by (eapply Qle_trans; eauto);
      rewrite <- Zle_Qle in Hz; lia]).
  - reflexivity.
  - apply IH. exact Hb.
Qed.



Definition exact_sleep (i : nat) (w : Q) : Q := w.


End RateLimitClaims.

(** ** Conversation history *)

Section HistoryClaims.
Import History.

Definition turn (i : nat) : Message :=
  mkMessage (if Nat.even i then s2l "user" else s2l "assistant") [].

(** A history holding exactly [MAX_HISTORY_TURNS] messages. *)
Definition full_history : list Message := map turn (seq 0 50).

(** The defaults of [ClaudeAPI.__init__]. *)
Definition default_api : ClaudeAPI :=
  mkClaudeAPI (s2l "claude-sonnet-4-5-20250929") 15.

(** Claim C8 (code bug): the assistant message is appended after the trim,
    so a completed turn on a full history leaves 51 messages. *)
Lemma query_stream_history_overflow :
  length full_history = MAX_HISTORY_TURNS /\
  length (qs_history (query_stream default_api 0 (s2l "hi") None full_history
                        [s2l "Hello!"] None)) = 51
  /\ qs_result (query_stream default_api 0 (s2l "hi") None full_history
                  [s2l "Hello!"] None) = Ok tt.
Proof. split; [reflexivity | split; reflexivity]. Qed.

End HistoryClaims.

(** * Further properties of the code *)

Section RetryExtras.
Import Retry.

(** X2. [retry_async], under the conditions of claim C4 (callbacks return,
    [get_delay_ms] returns a finite sleep): when every attempt raises a
    retryable exception, or when attempt [j] succeeds after retryable
    failures, [on_retry] is called with [(e_i, i + 1)] for each failed
    attempt [i] before the last one, in order, and the loop sleeps
    [get_delay_ms(i) / 1000] seconds after each of them. *)
Theorem retry_async_backoff_schedule {A} (func : nat -> outcome A) retryable rand
    func_name str_exn on_retry config (errs : nat -> exn) (N : nat) :
  max_attempts config = Z.of_nat N -> 1 <= N ->
  quiet func_name str_exn on_retry -> delays_ok config rand N ->
  ((forall i, i < N -> func i = Raise (errs i) /\ retryable (errs i) = true) ->
   r_retries (retry_async func retryable rand func_name str_exn on_retry config)
     = retry_calls_from errs 0 (N - 1)
   /\ map Some (r_sleeps (retry_async func retryable rand func_name str_exn on_retry config))
     = map (sleep_of config rand) (seq 0 (N - 1)))
  /\ (forall j v, j < N ->
      (forall i, i < j -> func i = Raise (errs i) /\ retryable (errs i) = true) ->
      func j = Return v ->
      r_retries (retry_async func retryable rand func_name str_exn on_retry config)
        = retry_calls_from errs 0 j
      /\ map Some (r_sleeps (retry_async func retryable rand func_name str_exn on_retry config))
        = map (sleep_of config rand) (seq 0 j)).
Proof.
  intros Hmax HN Hq Hd. unfold retry_async. rewrite Hmax, Nat2Z.id. split.
  - intros Hf.
    destruct (retry_loop_all_fail func retryable rand func_name str_exn on_retry config
                errs N Hmax Hq Hd N 0 None) as [_ [_ [E3 E4]]]; try lia.
    + intros i Hi. apply Hf. lia.
    + split; assumption.
  - intros j v Hj Hf Hv.
    destruct (retry_loop_stop func retryable rand func_name str_exn on_retry config
                errs N Hmax Hq Hd N 0 None j) as [_ [_ [E3 E4]]]; try lia.
    + intros i Hi. apply Hf. lia.
    + left. exists v. exact Hv.
    + rewrite Nat.sub_0_r in E3, E4. split; assumption.
Qed.

(** X3. [retry_async], under the conditions of claim C4: a non-retryable
    exception at invocation [j] is raised again unchanged after exactly
    [j + 1] invocations, with the earlier retries reported to [on_retry]. *)
Theorem retry_async_non_retryable {A} (func : nat -> outcome A) retryable rand
    func_name str_exn on_retry config (errs : nat -> exn) (N j : nat) (e : exn) :
  max_attempts config = Z.of_nat N -> j < N ->
  quiet func_name str_exn on_retry -> delays_ok config rand N ->
  (forall i, i < j -> func i = Raise (errs i) /\ retryable (errs i) = true) ->
  func j = Raise e -> retryable e = false ->
  r_result (retry_async func retryable rand func_name str_exn on_retry config) = Some (Err e)
  /\ r_calls (retry_async func retryable rand func_name str_exn on_retry config) = S j
  /\ r_retries (retry_async func retryable rand func_name str_exn on_retry config)
     = retry_calls_from errs 0 j.
Proof.
  intros Hmax Hj Hq Hd Hf He Hr. unfold retry_async. rewrite Hmax, Nat2Z.id.
  destruct (retry_loop_stop func retryable rand func_name str_exn on_retry config
              errs N Hmax Hq Hd N 0 None j) as [E1 [E2 [E3 _]]]; try lia.
  - intros i Hi. apply Hf. lia.
  - right. exists e. split; assumption.
  - rewrite E1, He, E2, E3, Nat.sub_0_r. repeat split.
Qed.

(** X4. [retry_async] with [max_attempts <= 0] raises [RuntimeError] without
    calling the function, logging or sleeping. *)
Theorem retry_async_no_attempts {A} (func : nat -> outcome A) retryable rand
    func_name str_exn on_retry config :
  (max_attempts config <= 0)%Z ->
  retry_async func retryable rand func_name str_exn on_retry config
  = mkRun (Some (Err runtime_error)) 0 [] [].
Proof.
  intros H. unfold retry_async.
  replace (Z.to_nat (max_attempts config)) with 0 by lia. reflexivity.
Qed.

Definition auth_error : exn := mkExn (s2l "WhisperAuthenticationError") (s2l "Invalid OpenAI API key").

(** Times out twice, then answers 7. *)
Definition two_timeouts (i : nat) : outcome nat :=
  if i <? 2 then Raise timeout_exn else Return 7.

(** Times out once, then fails authentication. *)
Definition timeout_then_auth (i : nat) : outcome nat :=
  if i <? 1 then Raise timeout_exn else Raise auth_error.

Definition only_timeouts (e : exn) : bool := eqb_text (exn_type e) (s2l "TimeoutError").

Definition no_jitter (n : Z) : RetryConfig :=
  {| max_attempts := n; initial_delay_ms := 100; max_delay_ms := 10000;
     exponential_base := 2; jitter := false |}.

Lemma quiet_defaults : quiet op_name never_raises no_callback.
Proof. split; [eexists; reflexivity | split; reflexivity]. Qed.

Lemma retry_async_backoff_schedule_witness :
  map Some (r_sleeps (retry_async two_timeouts only_timeouts (fun _ => 0%Q) op_name
                        never_raises no_callback (no_jitter 5)))
    = map (sleep_of (no_jitter 5) (fun _ => 0%Q)) (seq 0 2)
  /\ r_retries (retry_async always_failing only_timeouts (fun _ => 0%Q) op_name
                  never_raises no_callback (no_jitter 3))
    = retry_calls_from (fun _ => timeout_exn) 0 2.
Proof.
  split.
  - destruct (retry_async_backoff_schedule two_timeouts only_timeouts (fun _ => 0%Q) op_name
                never_raises no_callback (no_jitter 5) (fun _ => timeout_exn) 5 eq_refl
                ltac:(lia) quiet_defaults) as [_ H].
    + intros i Hi. destruct i as [|[|[|[|i]]]]; [| | | | lia];
        eexists; (split; [vm_compute; reflexivity | vm_compute; discriminate]).
    + apply (H 2 7); [lia | | reflexivity].
      intros i Hi. unfold two_timeouts.
      replace (i <? 2) with true by (symmetry; apply Nat.ltb_lt; lia). split; reflexivity.
  - destruct (retry_async_backoff_schedule always_failing only_timeouts (fun _ => 0%Q) op_name
                never_raises no_callback (no_jitter 3) (fun _ => timeout_exn) 3 eq_refl
                ltac:(lia) quiet_defaults) as [H _].
    + intros i Hi. destruct i as [|[|i]]; [| | lia];
        eexists; (split; [vm_compute; reflexivity | vm_compute; discriminate]).
    + apply H. intros i _. split; reflexivity.
Defined.

Lemma retry_async_non_retryable_witness :
  r_result (retry_async timeout_then_auth only_timeouts (fun _ => 0%Q) op_name never_raises
              no_callback (no_jitter 5)) = Some (Err auth_error)
  /\ r_calls (retry_async timeout_then_auth only_timeouts (fun _ => 0%Q) op_name never_raises
                no_callback (no_jitter 5)) = 2
  /\ r_retries (retry_async timeout_then_auth only_timeouts (fun _ => 0%Q) op_name never_raises
                  no_callback (no_jitter 5))
     = retry_calls_from (fun _ => timeout_exn) 0 1.
Proof.
  apply (retry_async_non_retryable timeout_then_auth only_timeouts (fun _ => 0%Q) op_name
           never_raises no_callback (no_jitter 5) (fun _ => timeout_exn) 5 1 auth_error eq_refl);
    try reflexivity; [lia | exact quiet_defaults | |].
  - intros i Hi. destruct i as [|[|[|[|i]]]]; [| | | | lia];
      eexists; (split; [vm_compute; reflexivity | vm_compute; discriminate]).
  - intros i Hi. replace i with 0 by lia. split; reflexivity.
Defined.

Lemma retry_async_no_attempts_witness :
  retry_async always_failing only_timeouts (fun _ => 0%Q) op_name never_raises no_callback
    (no_jitter 0)
  = mkRun (Some (Err runtime_error)) 0 [] [].
Proof. apply retry_async_no_attempts. simpl. lia. Defined.

End RetryExtras.

Section RateExtras.
Import RateLimit.
Local Open Scope Q_scope.



(** X6. The limiter of [WhisperSTT] with no rate, a zero rate or a rate below
    one request per second has a bucket of size 0, so [acquire(1)] never
    returns. *)
Theorem whisper_default_limiter_blocks (sleep : nat -> Q -> Q) (rate : option Q) (t0 now : Q) (k : nat) :
  (rate = None \/ exists r, rate = Some r /\ (r == 0 \/ 0 < r < 1)) ->
  bucket_size (Whisper.rate_limiter rate t0) = 0%Z
  /\ ~ acquire_returns_within sleep k (Whisper.rate_limiter rate t0) now 1.
Proof.
  intros Hr.
  assert (Hb : bucket_size (Whisper.rate_limiter rate t0) = 0%Z).
  { assert (Hfl : forall x, 0 < x < 1 -> py_int x = 0%Z).
    { intros x [H0 H1]. unfold py_int.
      replace (Qle_bool 0 x) with true by (symmetry; apply Qle_bool_iff; lra).
      assert (A1 := Qfloor_le x). assert (A2 := Qlt_floor x).
      assert (B1 : inject_Z (Qfloor x) < inject_Z 1) by (eapply Qle_lt_trans; eauto).
      assert (B2 : inject_Z 0 < inject_Z (Qfloor x + 1)) by (eapply Qlt_trans; eauto).
      rewrite <- Zlt_Qlt in B1, B2. lia. }
    unfold Whisper.rate_limiter, init. simpl.
    destruct Hr as [->|[r [-> [Hz|Hlt]]]].
    - apply Hfl. split; reflexivity.
    - replace (Qeq_bool r 0) with true by (symmetry; apply Qeq_bool_iff; exact Hz).
      apply Hfl. split; reflexivity.
    - destruct (Qeq_bool r 0) eqn:E.
      + apply Hfl. split; reflexivity.
      + apply Hfl. exact Hlt. }
  split; [exact Hb|]. intros [r Hk].
  rewrite acquire_never in Hk by (rewrite Hb; lia). discriminate.
Qed.

Lemma whisper_default_limiter_blocks_witness :
  bucket_size (Whisper.rate_limiter None 0) = 0%Z
  /\ ~ acquire_returns_within exact_sleep 1000 (Whisper.rate_limiter None 0) 5 1.
Proof. apply whisper_default_limiter_blocks. left. reflexivity. Defined.

End RateExtras.

Section HistoryExtras.
Import History.

Lemma trim_window (hu : list Message) :
  exists dropped,
    hu = dropped ++ (if MAX_HISTORY_TURNS <? length hu then last_n MAX_HISTORY_TURNS hu else hu)
    /\ length (if MAX_HISTORY_TURNS <? length hu then last_n MAX_HISTORY_TURNS hu else hu)
       = Nat.min (length hu) MAX_HISTORY_TURNS.
Proof.
  destruct (MAX_HISTORY_TURNS <? length hu) eqn:E.
  - apply Nat.ltb_lt in E. exists (firstn (length hu - MAX_HISTORY_TURNS) hu).
    unfold last_n. split; [symmetry; apply firstn_skipn|].
    rewrite length_skipn. lia.
  - apply Nat.ltb_ge in E. exists []. split; [reflexivity | lia].
Qed.

Lemma outer_handler_history api now t o h ys e :
  qs_history (outer_handler api now t o h ys e) = h.
Proof.
  unfold outer_handler.
  destruct (eqb_text _ _); [destruct (emit_opt _ _ _ _); reflexivity|].
  destruct (is_exception e); [destruct (emit_opt _ _ _ _); reflexivity | reflexivity].
Qed.

Lemma outer_handler_err api now t o h ys e :
  qs_result (outer_handler api now t o h ys e) <> Ok tt.
Proof.
  unfold outer_handler.
  destruct (eqb_text _ _); [destruct (emit_opt _ _ _ _); discriminate|].
  destruct (is_exception e); [destruct (emit_opt _ _ _ _); discriminate | discriminate].
Qed.

Lemma outer_handler_none api now t h ys e :
  outer_handler api now t None h ys e = mkQsRun None h ys (Err e).
Proof.
  unfold outer_handler. simpl.
  destruct (eqb_text _ _); [reflexivity|]. destruct (is_exception e); reflexivity.
Qed.

Lemma stream_loop_none now b toks err :
  stream_loop None now b toks err = (None, toks, err).
Proof.
  revert b. induction toks as [|c toks IH]; intros b; [reflexivity|].
  simpl. destruct b; simpl; rewrite IH; reflexivity.
Qed.

Lemma stream_loop_done o now b toks err o' ys :
  stream_loop o now b toks err = (o', ys, None) -> err = None.
Proof.
  revert o b o' ys. induction toks as [|c toks IH]; intros o b o' ys H.
  - injection H as _ _ H. exact H.
  - simpl in H. destruct (if b then _ else _) as [o1 r] eqn:E1.
    destruct r; [|discriminate].
    destruct (stream_loop o1 now _ toks err) as [[o2 ys'] err'] eqn:E2.
    injection H as _ _ ->. eapply IH. exact E2.
Qed.

(** X7. [ClaudeAPI.query_stream]: once the user message is added, the
    history is trimmed to its last [min(len + 1, 50)] messages; the run
    ends with the history unchanged (when the [LLM_QUERY_START] emit
    raises), with the trimmed history, or with the trimmed history and the
    assistant message.  The run succeeds only when the stream ended
    normally, and then the assistant message is there.  Without an
    observer the assistant message is added exactly when the stream ends
    normally, and the stream's exception is raised unchanged. *)
Theorem query_stream_history_window (api : ClaudeAPI) (now : Q) (t : text)
    (o : option Observer.InMemoryEventObserver) (h : list Message) (toks : list text)
    (err : option exn) :
  let R := query_stream api now t o h toks err in
  let asst := mkMessage (s2l "assistant") (concat toks) in
  exists dropped kept,
    h ++ [mkMessage (s2l "user") t] = dropped ++ kept
    /\ length kept = Nat.min (S (length h)) MAX_HISTORY_TURNS
    /\ (qs_history R = h \/ qs_history R = kept \/ qs_history R = kept ++ [asst])
    /\ (qs_result R = Ok tt -> err = None /\ qs_history R = kept ++ [asst])
    /\ (o = None ->
        qs_history R = kept ++ match err with Some _ => [] | None => [asst] end
        /\ qs_result R = match err with Some e => Err e | None => Ok tt end).
Proof.
  intros R asst.
  set (hu := h ++ [mkMessage (s2l "user") t]).
  destruct (trim_window hu) as [dropped [Hsplit Hlen]].
  set (h1 := if MAX_HISTORY_TURNS <? length hu then last_n MAX_HISTORY_TURNS hu else hu)
    in Hsplit, Hlen.
  exists dropped, h1. split; [exact Hsplit|].
  split; [rewrite Hlen; unfold hu; rewrite length_app, Nat.add_1_r; reflexivity|].
  assert (Hnone : o = None ->
          qs_history R = h1 ++ match err with Some _ => [] | None => [asst] end
          /\ qs_result R = match err with Some e => Err e | None => Ok tt end).
  { intros ->. unfold R, query_stream. cbn [emit_opt]. rewrite stream_loop_none. fold hu h1.
    destruct err as [e|].
    - destruct (eqb_text _ _); cbn [emit_opt reraise]; rewrite outer_handler_none;
        (split; [symmetry; apply app_nil_r | reflexivity]).
    - split; reflexivity. }
  cut ((qs_history R = h \/ qs_history R = h1 \/ qs_history R = h1 ++ [asst])
       /\ (qs_result R = Ok tt -> err = None /\ qs_history R = h1 ++ [asst])).
  { intros [HA HB]. split; [exact HA|]. split; [exact HB | exact Hnone]. }
  unfold R, query_stream. fold hu h1.
  destruct (emit_opt o now LLM_QUERY_START _) as [o1 r1] eqn:E1.
  destruct r1 as [[]|e1]; [|split; [left; reflexivity | discriminate]].
  destruct (stream_loop o1 now true toks err) as [[o2 ys] inner] eqn:E2.
  destruct inner as [e|].
  - assert (G : forall o3 e3,
               qs_history (outer_handler api now t o3 h1 ys e3) = h1
               /\ qs_result (outer_handler api now t o3 h1 ys e3) <> Ok tt)
      by (intros; split; [apply outer_handler_history | apply outer_handler_err]).
    destruct (eqb_text _ _);
      [destruct (emit_opt o2 now LLM_ERROR _) as [o3 r3]|];
      (split; [right; left; apply G | intros H; exfalso; eapply G; exact H]).
  - assert (Herr : err = None) by (eapply stream_loop_done; exact E2).
    destruct (emit_opt o2 now LLM_COMPLETE _) as [o3 r3].
    destruct r3 as [[]|e3].
    + split; [right; right; reflexivity | intros _; split; [exact Herr | reflexivity]].
    + split; [right; right; apply outer_handler_history|].
      intros H; exfalso; eapply outer_handler_err; exact H.
Qed.

(** A turn on a full history whose [LLM_COMPLETE] callback raises. *)
Definition raise_on_complete : Observer.InMemoryEventObserver :=
  Observer.mkObserver []
    [fun ev => match event_type ev with
               | LLM_COMPLETE => Some (mkExn (s2l "RuntimeError") (s2l "sink"))
               | _ => None end].

Lemma query_stream_history_window_witness :
  (exists dropped kept,
    full_history ++ [mkMessage (s2l "user") (s2l "hi")] = dropped ++ kept
    /\ length kept = Nat.min (S (length full_history)) MAX_HISTORY_TURNS
    /\ (qs_history (query_stream default_api 0 (s2l "hi") (Some raise_on_complete)
                     full_history [s2l "Hello!"] None) = full_history
        \/ qs_history (query_stream default_api 0 (s2l "hi") (Some raise_on_complete)
                         full_history [s2l "Hello!"] None) = kept
        \/ qs_history (query_stream default_api 0 (s2l "hi") (Some raise_on_complete)
                         full_history [s2l "Hello!"] None)
           = kept ++ [mkMessage (s2l "assistant") (concat [s2l "Hello!"])])
    /\ (qs_result (query_stream default_api 0 (s2l "hi") (Some raise_on_complete)
                     full_history [s2l "Hello!"] None) = Ok tt ->
        None = @None exn
        /\ qs_history (query_stream default_api 0 (s2l "hi") (Some raise_on_complete)
                         full_history [s2l "Hello!"] None)
           = kept ++ [mkMessage (s2l "assistant") (concat [s2l "Hello!"])])
    /\ (Some raise_on_complete = None ->
        qs_history (query_stream default_api 0 (s2l "hi") (Some raise_on_complete)
                      full_history [s2l "Hello!"] None)
        = kept ++ [mkMessage (s2l "assistant") (concat [s2l "Hello!"])]
        /\ qs_result (query_stream default_api 0 (s2l "hi") (Some raise_on_complete)
                        full_history [s2l "Hello!"] None) = Ok tt))
  /\ length (qs_history (query_stream default_api 0 (s2l "hi") (Some raise_on_complete)
                           full_history [s2l "Hello!"] None)) = 51
  /\ qs_result (query_stream default_api 0 (s2l "hi") (Some raise_on_complete)
                  full_history [s2l "Hello!"] None)
     = Err (mkExn (s2l "RuntimeError") (s2l "sink")).
Proof.
  split; [exact (query_stream_history_window default_api 0 (s2l "hi") (Some raise_on_complete)
                   full_history [s2l "Hello!"] None)|].
  split; vm_compute; reflexivity.
Defined.

End HistoryExtras.

Section ObserverExtras.
Import Observer ObserverOps.

Lemma event_type_of_value k : event_type_of_string (event_value k) = Ok k.
Proof. destruct k; reflexivity. Qed.

Lemma in_all_event_types k : In k all_event_types.
Proof. destruct k; simpl; tauto. Qed.

(** X8. [InMemoryEventObserver.emit] with a string either behaves as with the
    matching [EventType], or raises [ValueError("<repr> is not a valid
    EventType")] before recording or notifying anything. *)
Theorem emit_string_kind (o : InMemoryEventObserver) (now : Q) (v : string)
    (d : option (list (string * value))) :
  (exists k, event_value k = v /\ emit o now (inr v) d = emit o now (inl k) d)
  \/ ((forall k, event_value k <> v) /\
      emit o now (inr v) d =
        (o, [], Err (mkExn (s2l "ValueError")
                           (py_repr (s2l v) ++ s2l " is not a valid EventType")))).
Proof.
  unfold emit, event_type_of_string.
  destruct (find (fun k => String.eqb (event_value k) v) all_event_types) as [k|] eqn:F.
  - left. exists k. apply find_some in F. destruct F as [_ F].
    apply String.eqb_eq in F. split; [exact F | reflexivity].
  - right. split; [|reflexivity]. intros k Hk.
    assert (Hf := find_none _ _ F k (in_all_event_types k)). simpl in Hf.
    rewrite Hk, String.eqb_refl in Hf. discriminate.
Qed.

Lemma last_opt_snoc {A} (l : list A) x : last_opt (l ++ [x]) = Some x.
Proof. unfold last_opt. rewrite rev_app_distr. reflexivity. Qed.

Lemma get_events_by_type_emit o now k d o' inv r k' :
  emit o now (inl k) d = (o', inv, r) ->
  get_events_by_type o' k' =
  get_events_by_type o k' ++
  (if event_type_eqb k k' then [mkEvent now k (match d with Some l => l | None => [] end)] else []).
Proof.
  unfold emit. destruct (notify _ _ _) as [inv0 r0]. intros H. injection H as <- _ _.
  unfold get_events_by_type. simpl. rewrite filter_app. simpl.
  destruct (event_type_eqb k k'); reflexivity.
Qed.

Lemma dict_get_breakdown o name s e :
  In (name, s, e) stage_pairs ->
  dict_get (get_latency_breakdown o) name = stage_latency o s e.
Proof.
  unfold get_latency_breakdown. simpl.
  intros H; repeat destruct H as [H|H]; try (injection H as <- <- <-);
  try contradiction;
  repeat (match goal with |- context [match stage_latency o ?a ?b with _ => _ end] =>
            destruct (stage_latency o a b) end; simpl);
  reflexivity.
Qed.

(** X9. [get_latency_breakdown] after [emit]: an event of another type leaves a
    stage's entry unchanged, and an end event at time [now] sets it to the
    time since the last start event in ms, absent without one. *)
Theorem emit_latency_breakdown (o : InMemoryEventObserver) (now : Q) (k : EventType)
    (d : option (list (string * value))) o' inv r name s e :
  emit o now (inl k) d = (o', inv, r) -> In (name, s, e) stage_pairs ->
  (k <> s -> k <> e ->
   dict_get (get_latency_breakdown o') name = dict_get (get_latency_breakdown o) name)
  /\ (k = e ->
      dict_get (get_latency_breakdown o') name =
      option_map (fun a => ((now - timestamp a) * 1000)%Q) (last_opt (get_events_by_type o s))).
Proof.
  intros He Hin. rewrite !(dict_get_breakdown _ name s e Hin).
  assert (Hse : s <> e) by (simpl in Hin; intuition congruence).
  unfold stage_latency. rewrite !(get_events_by_type_emit o now k d o' inv r _ He).
  split.
  - intros Hs Hen. unfold event_type_eqb.
    destruct (EventType_eq_dec k s); [congruence|].
    destruct (EventType_eq_dec k e); [congruence|]. rewrite !app_nil_r. reflexivity.
  - intros ->. unfold event_type_eqb.
    destruct (EventType_eq_dec e s); [congruence|].
    destruct (EventType_eq_dec e e); [|congruence].
    rewrite app_nil_r, last_opt_snoc.
    destruct (last_opt (get_events_by_type o s)); reflexivity.
Qed.

Definition run_log : InMemoryEventObserver :=
  mkObserver [mkEvent 10 PIPELINE_START []; mkEvent 12 PIPELINE_COMPLETE [];
              mkEvent 20 PIPELINE_START []] [].

Lemma emit_latency_breakdown_witness :
  dict_get (get_latency_breakdown
              (fst (fst (emit run_log 21 (inl PIPELINE_COMPLETE) None)))) "pipeline_total"%string
  = Some 1000%Q.
Proof.
  destruct (emit_latency_breakdown run_log 21 PIPELINE_COMPLETE None
              (fst (fst (emit run_log 21 (inl PIPELINE_COMPLETE) None)))
              (snd (fst (emit run_log 21 (inl PIPELINE_COMPLETE) None)))
              (snd (emit run_log 21 (inl PIPELINE_COMPLETE) None))
              "pipeline_total"%string PIPELINE_START PIPELINE_COMPLETE
              eq_refl ltac:(simpl; tauto)) as [_ H].
  rewrite (H eq_refl). reflexivity.
Defined.

End ObserverExtras.

Section PipelineExtras.
Import Observer Pipeline.

Lemma map_combine_repeat {A B C} (f : A * B -> C) (l : list A) (x : B) :
  map f (combine l (repeat x (length l))) = map (fun a => f (a, x)) l.
Proof. induction l as [|a l IH]; simpl; [reflexivity|]. rewrite IH. reflexivity. Qed.

Lemma combine_app' {A B} (a b : list A) (c d : list B) :
  length a = length c -> combine (a ++ b) (c ++ d) = combine a c ++ combine b d.
Proof.
  revert c. induction a as [|x a IH]; intros [|y c] H; simpl in *; try discriminate;
    [reflexivity|]. rewrite IH by lia. reflexivity.
Qed.

Lemma flush_length b : length (Fixed.flush b) <= 1.
Proof. unfold Fixed.flush. destruct (strip b); simpl; lia. Qed.

(** [process_text] up to [_process_text_query] when no callback raises. *)
Lemma process_text_quiet p st now t :
  quiet_state st ->
  let d := [("text"%string, VText (firstn 100 t))] in
  let st1 := add_pobs st [mkEvent now PIPELINE_START d] in
  process_text p st now t =
  let '(st2, ds, r) := process_text_query p st1 now t in
  match r with
  | Ok _ => (add_pobs st2 [mkEvent now PIPELINE_COMPLETE d], ds, Ok tt)
  | Err e => (if is_exception e then add_pobs st2 [error_event now e] else st2, ds, Err e)
  end.
Proof.
  intros Hq d st1. unfold process_text. fold d.
  rewrite (emit_p_quiet _ _ _ _ Hq). fold st1. cbv beta iota zeta.
  assert (Hq1 : quiet_state st1) by (apply quiet_add_pobs; exact Hq).
  destruct (ptq_shape p st1 now t Hq1) as [sevs [E1 _]].
  destruct (process_text_query p st1 now t) as [[st2 ds] [u|e]]; simpl in E1; subst st2.
  - rewrite (emit_p_quiet _ _ _ _ (quiet_add_sentences _ _ Hq1)). reflexivity.
  - rewrite (handle_quiet _ _ _ (quiet_add_sentences _ _ Hq1)). reflexivity.
Qed.

(** X10. [VoicePipeline.process_text] when no event callback raises: the
    pipeline's observer records START, then (if the chunker shares it) one
    SENTENCE_READY per dispatched sentence in dispatch order, only a
    flushed last one marked final, then COMPLETE on success; on failure it
    records one PIPELINE_ERROR carrying the exception if that is an
    [Exception], nothing more otherwise.  A separate observer of the
    chunker records the SENTENCE_READY events instead.  The run fails with
    the token stream's exception, raised before any final flush, or else
    with the exception of the failing synthesis that [asyncio.gather] sees
    first: tasks already done when it is called first, in dispatch order,
    then by completion time. *)
Theorem process_text_log (p : providers) (st : state) (now : Q) (t : text) :
  quiet_state st ->
  let d := [("text"%string, VText (firstn 100 t))] in
  let '(st', disp, r) := process_text p st now t in
  exists flags lastevs,
    st' = add_pobs (add_sentences (add_pobs st [mkEvent now PIPELINE_START d])
                     (map (fun sf => sentence_event now (fst sf) (snd sf)) (combine disp flags)))
                   lastevs
    /\ length flags = length disp
    /\ (exists k, k <= 1 /\ flags = repeat false (length disp - k) ++ repeat true k)
    /\ ((r = Ok tt /\ llm_error p t = None
         /\ (forall i s, nth_error disp i = Some s -> raised (tts p i s) = None)
         /\ lastevs = [mkEvent now PIPELINE_COMPLETE d])
        \/ (exists e, r = Err e
            /\ lastevs = (if is_exception e then [error_event now e] else [])
            /\ ((llm_error p t = Some e /\ flags = repeat false (length disp))
                \/ (llm_error p t = None /\ exists i s, nth_error disp i = Some s
                    /\ raised (tts p i s) = Some e
                    /\ forall j s', nth_error disp j = Some s' -> raised (tts p j s') <> None ->
                       key (gather_at p) (tts p i s) < key (gather_at p) (tts p j s')
                       \/ (key (gather_at p) (tts p i s) = key (gather_at p) (tts p j s')
                           /\ i <= j))))).
Proof.
  intros Hq d. rewrite (process_text_quiet p st now t Hq). fold d.
  set (st1 := add_pobs st [mkEvent now PIPELINE_START d]).
  assert (Hq1 : quiet_state st1) by (apply quiet_add_pobs; exact Hq).
  rewrite (ptq_quiet p st1 now t Hq1).
  destruct (Fixed.chunk_tokens (min_len p) [] (llm_tokens p t)) as [out b].
  destruct (llm_error p t) as [e|].
  - cbv beta iota.
    exists (repeat false (length out)), (if is_exception e then [error_event now e] else []).
    rewrite map_combine_repeat. split.
    + destruct (is_exception e); [reflexivity | rewrite add_pobs_nil; reflexivity].
    + split; [apply repeat_length|]. split.
      * exists 0. rewrite Nat.sub_0_r, app_nil_r. split; [lia | reflexivity].
      * right. exists e. repeat split. left. split; reflexivity.
  - cbv beta iota. set (fin := Fixed.flush b).
    assert (Hf : length fin <= 1) by apply flush_length.
    set (flags := repeat false (length out) ++ repeat true (length fin)).
    assert (Hc : map (fun sf => sentence_event now (fst sf) (snd sf)) (combine (out ++ fin) flags)
                 = sentence_events now out false ++ sentence_events now fin true).
    { unfold flags. rewrite combine_app' by apply eq_sym, repeat_length.
      rewrite map_app, !map_combine_repeat. reflexivity. }
    assert (Hfl : length flags = length (out ++ fin))
      by (unfold flags; rewrite !length_app, !repeat_length; reflexivity).
    assert (Hshape : exists k, k <= 1 /\ flags = repeat false (length (out ++ fin) - k) ++ repeat true k).
    { exists (length fin). split; [exact Hf|]. unfold flags.
      rewrite length_app. f_equal. f_equal. lia. }
    destruct (gather_spec (gather_at p) (create_tasks p 0 (out ++ fin)))
      as [[G F]|[i [o [e [G [Hi [Hr Hmin]]]]]]]; rewrite G.
    + exists flags, [mkEvent now PIPELINE_COMPLETE d]. rewrite Hc.
      split; [reflexivity|]. split; [exact Hfl|]. split; [exact Hshape|].
      left. split; [reflexivity|]. split; [reflexivity|]. split; [|reflexivity].
      intros i s Hs. apply (F i). rewrite nth_create_tasks, Hs. reflexivity.
    + exists flags, (if is_exception e then [error_event now e] else []). rewrite Hc.
      split; [destruct (is_exception e); [reflexivity | rewrite add_pobs_nil; reflexivity]|].
      split; [exact Hfl|]. split; [exact Hshape|].
      right. exists e. split; [reflexivity|]. split; [reflexivity|].
      right. split; [reflexivity|].
      rewrite nth_create_tasks in Hi. simpl in Hi.
      destruct (nth_error (out ++ fin) i) as [s|] eqn:Es; [|discriminate].
      injection Hi as <-. exists i, s. split; [exact Es|]. split; [exact Hr|].
      intros j s' Hs' Hn. apply (Hmin j); [|exact Hn].
      rewrite nth_create_tasks, Hs'. reflexivity.
Qed.

(** Synthesis that fails for the first sentence late (time 9) and for the
    second one early (time 2), the stream ending at time 5. *)
Definition late_then_early : providers :=
  {| llm_tokens := fun _ => char_tokens ex_scenario; llm_error := fun _ => None;
     gather_at := 5;
     tts := fun i _ => match i with
                       | 0 => mkTts 9 (Some (mkExn (s2l "TTSGenerationError") (s2l "first")))
                       | 1 => mkTts 2 (Some (mkExn (s2l "TTSGenerationError") (s2l "second")))
                       | _ => mkTts 0 None
                       end;
     min_len := 5 |}.

Lemma process_text_log_witness :
  snd (process_text late_then_early shared_observer 0 [])
    = Err (mkExn (s2l "TTSGenerationError") (s2l "second"))
  /\ let d := [("text"%string, VText (firstn 100 []))] in
     let '(st', disp, r) := process_text late_then_early shared_observer 0 [] in
     exists flags lastevs,
       st' = add_pobs (add_sentences (add_pobs shared_observer [mkEvent 0 PIPELINE_START d])
                        (map (fun sf => sentence_event 0 (fst sf) (snd sf)) (combine disp flags)))
                      lastevs
       /\ length flags = length disp
       /\ (exists k, k <= 1 /\ flags = repeat false (length disp - k) ++ repeat true k)
       /\ ((r = Ok tt /\ llm_error late_then_early [] = None
            /\ (forall i s, nth_error disp i = Some s -> raised (tts late_then_early i s) = None)
            /\ lastevs = [mkEvent 0 PIPELINE_COMPLETE d])
           \/ (exists e, r = Err e
               /\ lastevs = (if is_exception e then [error_event 0 e] else [])
               /\ ((llm_error late_then_early [] = Some e /\ flags = repeat false (length disp))
                   \/ (llm_error late_then_early [] = None /\ exists i s, nth_error disp i = Some s
                       /\ raised (tts late_then_early i s) = Some e
                       /\ forall j s', nth_error disp j = Some s' ->
                          raised (tts late_then_early j s') <> None ->
                          key (gather_at late_then_early) (tts late_then_early i s)
                            < key (gather_at late_then_early) (tts late_then_early j s')
                          \/ (key (gather_at late_then_early) (tts late_then_early i s)
                              = key (gather_at late_then_early) (tts late_then_early j s')
                              /\ i <= j))))).
Proof.
  split; [vm_compute; reflexivity|].
  exact (process_text_log late_then_early shared_observer 0 [] quiet_shared).
Defined.

(** X11. [VoicePipeline.process_text] when no event callback raises: an
    exception of the token stream makes the run fail with that exception
    whatever the synthesis does, and the sentences dispatched are those of
    the run whose stream ends normally after the same tokens, less the
    final flush of at most one sentence. *)
Theorem process_text_llm_error (p p' : providers) (st : state) (now : Q) (t : text) (e : exn) :
  quiet_state st ->
  llm_error p t = Some e -> llm_error p' t = None ->
  llm_tokens p' t = llm_tokens p t -> min_len p' = min_len p ->
  snd (process_text p st now t) = Err e /\
  exists fin, length fin <= 1 /\
    snd (fst (process_text p' st now t)) = snd (fst (process_text p st now t)) ++ fin.
Proof.
  intros Hq He He' Ht Hm.
  rewrite (process_text_quiet p st now t Hq), (process_text_quiet p' st now t Hq).
  cbv zeta.
  rewrite (ptq_quiet p _ now t (quiet_add_pobs _ _ Hq)),
          (ptq_quiet p' _ now t (quiet_add_pobs _ _ Hq)), He, He', Ht, Hm.
  destruct (Fixed.chunk_tokens (min_len p) [] (llm_tokens p t)) as [out b].
  cbv beta iota. split; [destruct (is_exception e); reflexivity|].
  exists (Fixed.flush b). split; [apply flush_length|].
  destruct (gather _ _); reflexivity.
Qed.

Definition stream_fails : providers :=
  {| llm_tokens := fun _ => char_tokens ex_scenario;
     llm_error := fun _ => Some (mkExn (s2l "RuntimeError") (s2l "stream closed"));
     gather_at := 0; tts := tts_ok; min_len := 5 |}.

Lemma process_text_llm_error_witness :
  snd (process_text stream_fails shared_observer 0 [])
    = Err (mkExn (s2l "RuntimeError") (s2l "stream closed")) /\
  snd (fst (process_text scenario_chars shared_observer 0 []))
    = snd (fst (process_text stream_fails shared_observer 0 [])) ++ [s2l "Fine."].
Proof.
  destruct (process_text_llm_error stream_fails scenario_chars shared_observer 0 []
              (mkExn (s2l "RuntimeError") (s2l "stream closed")) quiet_shared
              eq_refl eq_refl eq_refl eq_refl) as [H1 _].
  split; [exact H1 | vm_compute; reflexivity].
Defined.

End PipelineExtras.

Section ChunkerExtras.

Lemma lstrip_head t :
  lstrip t = [] \/ exists c r, lstrip t = c :: r /\ is_space c = false.
Proof.
  induction t as [|c r IH]; simpl; [left; reflexivity|].
  destruct (is_space c) eqn:Hc; [exact IH|]. right. exists c, r. split; [reflexivity|exact Hc].
Qed.

Lemma lstrip_id c r : is_space c = false -> lstrip (c :: r) = c :: r.
Proof. intros H. simpl. rewrite H. reflexivity. Qed.

Lemma rstrip_last t :
  rstrip t = [] \/ exists r c, rstrip t = r ++ [c] /\ is_space c = false.
Proof.
  unfold rstrip. destruct (lstrip_head (rev t)) as [->|[c [r [-> Hc]]]].
  - left. reflexivity.
  - right. exists (rev r), c. split; [reflexivity|exact Hc].
Qed.

Lemma rstrip_id r c : is_space c = false -> rstrip (r ++ [c]) = r ++ [c].
Proof.
  intros H. unfold rstrip. rewrite rev_app_distr. simpl. rewrite H.
  change (c :: rev r) with ([c] ++ rev r). rewrite rev_app_distr, rev_involutive.
  reflexivity.
Qed.

Lemma rstrip_idem t : rstrip (rstrip t) = rstrip t.
Proof.
  destruct (rstrip_last t) as [E|[r [c [E Hc]]]]; rewrite E; [reflexivity|].
  apply rstrip_id, Hc.
Qed.

Lemma strip_idem t : strip (strip t) = strip t.
Proof.
  unfold strip. set (y := lstrip t).
  assert (Hy : lstrip (rstrip y) = rstrip y).
  { destruct (rstrip_prefix y) as [h Hh].
    destruct (rstrip y) as [|c r] eqn:E; [reflexivity|].
    apply lstrip_id. unfold y in Hh.
    destruct (lstrip_head t) as [H0|[c' [r' [H1 Hc']]]].
    - rewrite H0 in Hh. discriminate.
    - rewrite H1 in Hh. injection Hh as -> _. exact Hc'. }
  rewrite Hy. apply rstrip_idem.
Qed.

Lemma strip_snoc_eq l c :
  is_space c = false -> exists l', strip (l ++ [c]) = l' ++ [c].
Proof.
  intros Hc. destruct (lstrip_snoc l c Hc) as [l' Hl'].
  exists l'. unfold strip. rewrite Hl'. apply rstrip_id, Hc.
Qed.

(** A sentence cut inside the stream: stripped, ending with a terminator. *)
Definition cut_sentence (s : text) : Prop :=
  strip s = s /\ exists l c, s = l ++ [c] /\ Fixed.is_terminator c = true.

Lemma cut_strip l c : Fixed.is_terminator c = true -> cut_sentence (strip (l ++ [c])).
Proof.
  intros Ht. split; [apply strip_idem|].
  destruct (strip_snoc_eq l c (terminator_not_space c Ht)) as [l' E].
  exists l', c. split; [exact E | exact Ht].
Qed.

Lemma Forall_removelast {A} (P : A -> Prop) l : Forall P l -> Forall P (removelast l).
Proof.
  intros H. destruct l as [|a l]; [constructor|].
  rewrite (app_removelast_last a (l := a :: l)) in H by discriminate.
  apply Forall_app in H. apply H.
Qed.

Lemma split_fold_cut m t0 l : forall sents cur,
  Forall cut_sentence sents ->
  Forall cut_sentence (fst (fold_left (Fixed.split_step m t0) l (sents, cur))).
Proof.
  induction l as [|c l IH]; intros sents cur H; simpl; [exact H|].
  destruct (Fixed.is_terminator c && (m <=? length (cur ++ [c]))) eqn:Ht; [|apply IH, H].
  apply andb_true_iff in Ht. destruct Ht as [Ht _].
  match goal with |- context [if ?b then _ else _] => destruct b end; [|apply IH, H].
  apply IH, Forall_app. split; [exact H|]. constructor; [apply cut_strip, Ht | constructor].
Qed.

Lemma extract_sentences_cut m t :
  Forall cut_sentence (removelast (Fixed.extract_sentences m t)).
Proof.
  unfold Fixed.extract_sentences. destruct t as [|a t']; [constructor|].
  destruct (_ || _ || _ || _ || _); [constructor|].
  unfold Fixed.split_loop.
  assert (H := split_fold_cut m (a :: t') (a :: t') [] [] (Forall_nil _)).
  destruct (fold_left _ _ _) as [sents cur]. simpl in H.
  destruct cur as [|c cur'].
  - destruct sents; [constructor|]. apply Forall_removelast, H.
  - destruct (sents ++ [c :: cur']) eqn:E.
    + apply app_eq_nil in E. destruct E as [_ E]. discriminate.
    + rewrite <- E, removelast_last. exact H.
Qed.

Definition inner_sentence (m : nat) (s : text) : Prop := cut_sentence s /\ m <= length s.

Lemma fixed_chunk_tokens_inner m toks : forall b,
  Forall (inner_sentence m) (fst (Fixed.chunk_tokens m b toks)).
Proof.
  induction toks as [|tok rest IH]; intros b; simpl; [constructor|].
  unfold Fixed.chunk_token.
  assert (Hc := extract_sentences_cut m (b ++ tok)).
  destruct (Fixed.extract_sentences m (b ++ tok)) as [|s0 ss].
  { specialize (IH (b ++ tok)). destruct (Fixed.chunk_tokens m _ rest). exact IH. }
  specialize (IH (last (s0 :: ss) [])).
  destruct (Fixed.chunk_tokens m _ rest) as [o2 b2]. simpl in *.
  apply Forall_app. split; [|exact IH].
  apply Forall_forall. intros x Hx. apply filter_In in Hx. destruct Hx as [Hx Hl].
  split; [exact (proj1 (Forall_forall _ _) Hc x Hx) | apply Nat.leb_le, Hl].
Qed.

Lemma flush_shape b : Forall (fun s => strip s = s /\ s <> []) (Fixed.flush b).
Proof.
  unfold Fixed.flush. destruct (strip b) as [|c r] eqn:E; [constructor|].
  constructor; [|constructor]. rewrite <- E. split; [apply strip_idem|].
  rewrite E. discriminate.
Qed.

(** X12. The sentences of the edge-case chunker: all but at most the last are
    cut inside the stream, are stripped, end with a terminator and are at
    least [m] long; the last may be the final flush, stripped and
    nonempty. *)
Theorem fixed_chunk_stream_shape (m : nat) (toks : list text) :
  exists inner fin, Fixed.chunk_stream m toks = inner ++ fin /\ length fin <= 1
    /\ Forall (inner_sentence m) inner
    /\ Forall (fun s => strip s = s /\ s <> []) fin.
Proof.
  unfold Fixed.chunk_stream.
  assert (H := fixed_chunk_tokens_inner m toks []).
  destruct (Fixed.chunk_tokens m [] toks) as [out b]. simpl in H.
  exists out, (Fixed.flush b). repeat split;
    [apply flush_length | exact H | apply flush_shape].
Qed.

Lemma combine_seq_nth (t : text) : forall k i c,
  In (i, c) (combine (seq k (length t)) t) -> k <= i /\ nth_error t (i - k) = Some c.
Proof.
  induction t as [|a t IH]; intros k i c H; simpl in H; [contradiction|].
  destruct H as [H|H].
  - injection H as <- <-. rewrite Nat.sub_diag. split; [lia|reflexivity].
  - destruct (IH (S k) i c H) as [Hk Hn]. split; [lia|].
    replace (i - k) with (S (i - S k)) by lia. exact Hn.
Qed.

Lemma firstn_S_nth (t : text) : forall i c,
  nth_error t i = Some c -> firstn (S i) t = firstn i t ++ [c].
Proof.
  induction t as [|a t IH]; intros [|i] c H; simpl in *; try discriminate.
  - injection H as ->. reflexivity.
  - rewrite (IH i c H). reflexivity.
Qed.

Lemma positions_term t pos :
  In pos (Basic.positions t) ->
  exists c, firstn (pos + 1) t = firstn pos t ++ [c] /\ Fixed.is_terminator c = true.
Proof.
  unfold Basic.positions. intros H. apply in_map_iff in H.
  destruct H as [[i c] [Hi H]]. simpl in Hi. subst i.
  apply filter_In in H. destruct H as [H Ht]. simpl in Ht.
  destruct (combine_seq_nth t 0 pos c H) as [_ Hn]. rewrite Nat.sub_0_r in Hn.
  exists c. rewrite Nat.add_1_r. split; [apply firstn_S_nth, Hn | exact Ht].
Qed.

Lemma basic_extract_sentence_cut m t :
  Basic.extract_sentence m t = [] \/
  (cut_sentence (Basic.extract_sentence m t) /\ m <= length (Basic.extract_sentence m t)).
Proof.
  unfold Basic.extract_sentence.
  remember (Basic.positions t) as ps eqn:Eps.
  assert (Hp : forall pos, In pos ps -> In pos (Basic.positions t)) by (subst; auto).
  clear Eps.
  induction ps as [|pos ps IH]; [left; reflexivity|].
  cbv beta iota.
  destruct (existsb _ _); [apply IH; intros q Hq; apply Hp; right; exact Hq|].
  destruct (length (strip (firstn (pos + 1) t)) <? m) eqn:Hl;
    [apply IH; intros q Hq; apply Hp; right; exact Hq|].
  right. apply Nat.ltb_ge in Hl. split; [|exact Hl].
  destruct (positions_term t pos (Hp pos (or_introl eq_refl))) as [c [E Ht]].
  rewrite E. apply cut_strip, Ht.
Qed.

Lemma basic_chunk_tokens_inner m toks : forall b,
  Forall (inner_sentence m) (fst (Basic.chunk_tokens m b toks)).
Proof.
  induction toks as [|tok rest IH]; intros b; simpl; [constructor|].
  unfold Basic.chunk_token.
  assert (IHb := IH (b ++ tok)).
  destruct (Basic.chunk_tokens m (b ++ tok) rest) as [o0 b0] eqn:E0. simpl in IHb.
  destruct (Basic.has_sentence_boundary (b ++ tok)); [|rewrite E0; exact IHb].
  destruct (basic_extract_sentence_cut m (b ++ tok)) as [E|[Hc Hl]].
  - rewrite E, E0. exact IHb.
  - destruct (Basic.extract_sentence m (b ++ tok)) as [|c r] eqn:E; [rewrite E0; exact IHb|].
    destruct (m <=? length (c :: r)); [|rewrite E0; exact IHb].
    specialize (IH (lstrip (skipn (length (c :: r)) (b ++ tok)))).
    destruct (Basic.chunk_tokens m _ rest) as [o2 b2]. simpl in *.
    constructor; [split; assumption | exact IH].
Qed.

(** X13. The same shape for the basic chunker. *)
Theorem basic_chunk_stream_shape (m : nat) (toks : list text) :
  exists inner fin, Basic.chunk_stream m toks = inner ++ fin /\ length fin <= 1
    /\ Forall (inner_sentence m) inner
    /\ Forall (fun s => strip s = s /\ s <> []) fin.
Proof.
  unfold Basic.chunk_stream.
  assert (H := basic_chunk_tokens_inner m toks []).
  destruct (Basic.chunk_tokens m [] toks) as [out b]. simpl in H.
  exists out, (Fixed.flush b). repeat split;
    [apply flush_length | exact H | apply flush_shape].
Qed.

End ChunkerExtras.

Section MockExtras.

Definition word (w : text) : Prop :=
  w <> [] /\ forallb (fun c => negb (is_space c)) w = true.

Definition tailjoin (ws : list text) : text := concat (map (cons " "%char) ws).

Definition join (ws : list text) : text :=
  match ws with [] => [] | w :: r => w ++ tailjoin r end.

Definition flush_word (cur : text) : list text :=
  match cur with [] => [] | _ => [rev cur] end.

Lemma mock_concat_join t : concat (mock_tokenize t) = join (split_words_acc [] t).
Proof.
  unfold mock_tokenize. destruct (split_words_acc [] t) as [|w ws]; [reflexivity|].
  simpl. f_equal. unfold tailjoin. induction ws as [|w' ws IH]; [reflexivity|].
  simpl. rewrite IH. reflexivity.
Qed.

Lemma split_words_word t : forall cur,
  forallb (fun c => negb (is_space c)) cur = true ->
  Forall word (split_words_acc cur t).
Proof.
  induction t as [|c r IH]; intros cur Hc; simpl.
  - destruct cur as [|a cur]; [constructor|]. constructor; [|constructor]. split.
    + destruct (rev (a :: cur)) eqn:E; [|discriminate].
      apply (f_equal (@length _)) in E. rewrite length_rev in E. discriminate.
    + rewrite forallb_forall in *. intros x Hx. apply Hc, in_rev, Hx.
  - destruct (is_space c) eqn:Hs.
    + destruct cur as [|a cur]; [apply IH; reflexivity|].
      constructor; [|apply IH; reflexivity]. split.
      * destruct (rev (a :: cur)) eqn:E; [|discriminate].
        apply (f_equal (@length _)) in E. rewrite length_rev in E. discriminate.
      * rewrite forallb_forall in *. intros x Hx. apply Hc, in_rev, Hx.
    + apply IH. simpl. rewrite Hs, Hc. reflexivity.
Qed.

Lemma split_words_app w r : forall cur,
  forallb (fun c => negb (is_space c)) w = true ->
  split_words_acc cur (w ++ r) = split_words_acc (rev w ++ cur) r.
Proof.
  induction w as [|c w IH]; intros cur Hw; simpl; [reflexivity|].
  simpl in Hw. apply andb_true_iff in Hw. destruct Hw as [Hc Hw].
  apply negb_true_iff in Hc. rewrite Hc, IH by exact Hw.
  rewrite <- app_assoc. reflexivity.
Qed.

Lemma split_words_tailjoin ws : forall cur,
  Forall word ws -> split_words_acc cur (tailjoin ws) = flush_word cur ++ ws.
Proof.
  induction ws as [|w ws IH]; intros cur Hws.
  - simpl. rewrite app_nil_r. destruct cur; reflexivity.
  - inversion Hws as [|? ? [Hne Hw] Hr]; subst.
    assert (E : split_words_acc [] (w ++ tailjoin ws) = w :: ws).
    { rewrite split_words_app, app_nil_r, IH by assumption.
      destruct (rev w) as [|a r'] eqn:Er.
      - destruct w; [contradiction|]. apply (f_equal (@length _)) in Er.
        rewrite length_rev in Er. discriminate.
      - unfold flush_word. rewrite <- Er, rev_involutive. reflexivity. }
    change (tailjoin (w :: ws)) with (" "%char :: w ++ tailjoin ws).
    destruct cur as [|a cur]; simpl; rewrite E; reflexivity.
Qed.

Lemma words_join ws : Forall word ws -> split_words_acc [] (join ws) = ws.
Proof.
  intros H. destruct ws as [|w ws]; [reflexivity|].
  inversion H as [|? ? [Hne Hw] Hr]; subst. simpl.
  rewrite split_words_app, app_nil_r, split_words_tailjoin by assumption.
  destruct (rev w) as [|a r'] eqn:Er.
  - destruct w; [contradiction|]. apply (f_equal (@length _)) in Er.
    rewrite length_rev in Er. discriminate.
  - unfold flush_word. rewrite <- Er, rev_involutive. reflexivity.
Qed.

Lemma ssr_nonspace w r :
  forallb (fun c => negb (is_space c)) w = true ->
  single_spaced_rest (w ++ r) = single_spaced_rest r.
Proof.
  induction w as [|c w IH]; intros Hw; simpl; [reflexivity|].
  simpl in Hw. apply andb_true_iff in Hw. destruct Hw as [Hc Hw].
  destruct (Ascii.eqb c " "%char) eqn:E.
  - apply Ascii.eqb_eq in E. subst. discriminate.
  - rewrite Hc, IH by exact Hw. reflexivity.
Qed.

Lemma ssr_cons_space d r :
  single_spaced_rest (" "%char :: d :: r) = negb (is_space d) && single_spaced_rest (d :: r).
Proof. reflexivity. Qed.

Lemma ssr_tailjoin ws : Forall word ws -> single_spaced_rest (tailjoin ws) = true.
Proof.
  induction ws as [|w ws IH]; intros H; [reflexivity|].
  inversion H as [|? ? [Hne Hw] Hr]; subst.
  destruct w as [|d w]; [contradiction|].
  change (tailjoin ((d :: w) :: ws)) with (" "%char :: d :: w ++ tailjoin ws).
  rewrite ssr_cons_space.
  change (d :: w ++ tailjoin ws) with ((d :: w) ++ tailjoin ws).
  rewrite ssr_nonspace, (IH Hr) by exact Hw.
  simpl in Hw. apply andb_true_iff in Hw. destruct Hw as [Hd _]. rewrite Hd. reflexivity.
Qed.

Lemma single_spaced_join ws : Forall word ws -> single_spaced (join ws) = true.
Proof.
  intros H. destruct ws as [|w ws]; [reflexivity|].
  inversion H as [|? ? [Hne Hw] Hr]; subst. simpl.
  destruct w as [|d w]; [contradiction|]. simpl app. unfold single_spaced.
  assert (Hd : negb (is_space d) = true) by (simpl in Hw; apply andb_true_iff in Hw; apply Hw).
  rewrite Hd. change (d :: w ++ tailjoin ws) with ((d :: w) ++ tailjoin ws).
  rewrite ssr_nonspace by exact Hw. apply ssr_tailjoin, Hr.
Qed.

Lemma ssr_split t : single_spaced_rest t = true ->
  exists w0 ws, forallb (fun c => negb (is_space c)) w0 = true /\ Forall word ws
    /\ t = w0 ++ tailjoin ws.
Proof.
  induction t as [|c r IH]; simpl; intros H.
  - exists [], []. repeat split; constructor.
  - destruct (Ascii.eqb c " "%char) eqn:E.
    + apply Ascii.eqb_eq in E. subst c.
      destruct r as [|d r']; [discriminate|].
      apply andb_true_iff in H. destruct H as [Hd H].
      destruct (IH H) as [w0 [ws [Hw0 [Hws Er]]]].
      exists [], (w0 :: ws). split; [reflexivity|]. split.
      * constructor; [|exact Hws]. split; [|exact Hw0].
        intros ->. destruct ws as [|w1 ws]; simpl in Er; [discriminate|].
        injection Er as -> _. discriminate.
      * simpl. rewrite Er. reflexivity.
    + apply andb_true_iff in H. destruct H as [Hc H].
      destruct (IH H) as [w0 [ws [Hw0 [Hws Er]]]].
      exists (c :: w0), ws. simpl. rewrite Hc, Hw0, Er. repeat split; exact Hws.
Qed.

Lemma single_spaced_split t : single_spaced t = true ->
  exists ws, Forall word ws /\ t = join ws.
Proof.
  unfold single_spaced. destruct t as [|c r]; intros H.
  - exists []. split; [constructor | reflexivity].
  - apply andb_true_iff in H. destruct H as [Hc H].
    destruct (ssr_split _ H) as [w0 [ws [Hw0 [Hws Er]]]].
    destruct w0 as [|a w0].
    + destruct ws as [|w1 ws]; simpl in Er; [discriminate|].
      injection Er as -> _. discriminate.
    + exists ((a :: w0) :: ws). split; [constructor; [split; [discriminate|exact Hw0]|exact Hws]|].
      exact Er.
Qed.

(** X14. The word tokens of [MockLLM] give back the response exactly when it
    is in whitespace normal form: nonempty words separated by single
    spaces, no leading or trailing whitespace. *)
Theorem mock_tokenize_concat (t : text) :
  concat (mock_tokenize t) = t <-> single_spaced t = true.
Proof.
  rewrite mock_concat_join. split.
  - intros E. rewrite <- E. apply single_spaced_join, split_words_word. reflexivity.
  - intros H. destruct (single_spaced_split t H) as [ws [Hws ->]].
    rewrite words_join by exact Hws. reflexivity.
Qed.

End MockExtras.

Section PcmExtras.
Import Audio Samples.
Local Open Scope Q_scope.

Lemma byte_Z_bounds b : (0 <= byte_Z b <= 255)%Z.
Proof.
  unfold byte_Z. assert (H := Byte.to_N_bounded b). lia.
Qed.

Lemma byte_Z_of_Z x : (0 <= x <= 255)%Z -> byte_Z (byte_of_Z x) = x.
Proof.
  intros Hx. unfold byte_of_Z, byte_Z.
  destruct (Byte.of_N (Z.to_N x)) as [b|] eqn:E.
  - apply Byte.to_of_N in E. rewrite E. apply Z2N.id. lia.
  - apply Byte.of_N_None_iff in E. lia.
Qed.

Lemma unpack_cons lo hi r :
  unpack_h (lo :: hi :: r) = signed16 (byte_Z lo + 256 * byte_Z hi)%Z :: unpack_h r.
Proof. reflexivity. Qed.

Lemma unpack_le16 z r :
  in_int16 z = true -> unpack_h (le16 z ++ r) = z :: unpack_h r.
Proof.
  unfold in_int16. intros H. apply andb_true_iff in H.
  destruct H as [H1 H2]. apply Z.leb_le in H1, H2.
  unfold le16, le16u. cbn [app]. rewrite unpack_cons. f_equal.
  assert (B : forall w, (0 <= w mod 256 <= 255)%Z)
    by (intros w; pose proof (Z.mod_pos_bound w 256 ltac:(lia)); lia).
  rewrite !byte_Z_of_Z by apply B.
  set (m := (z mod 65536)%Z).
  assert (Hm : (0 <= m < 65536)%Z) by (apply Z.mod_pos_bound; lia).
  assert (Hz : (z < 0 /\ m = z + 65536 \/ 0 <= z /\ m = z)%Z)
    by (unfold m; Z.div_mod_to_equations; lia).
  assert (Hs : (m mod 256 + 256 * (m / 256 mod 256) = m)%Z)
    by (Z.div_mod_to_equations; lia).
  rewrite Hs. unfold signed16.
  destruct (32768 <=? m)%Z eqn:E; [apply Z.leb_le in E | apply Z.leb_gt in E]; lia.
Qed.

Lemma length_flat_map_le16 zs : length (flat_map le16 zs) = (2 * length zs)%nat.
Proof. induction zs as [|z zs IH]; simpl; [reflexivity|]. rewrite IH. lia. Qed.

Lemma unpack_flat_map_le16 zs :
  forallb in_int16 zs = true -> unpack_h (flat_map le16 zs) = zs.
Proof.
  induction zs as [|z zs IH]; cbn [flat_map forallb]; intros H; [reflexivity|].
  apply andb_true_iff in H. destruct H as [Hz H].
  rewrite unpack_le16 by exact Hz. rewrite IH by exact H. reflexivity.
Qed.

Lemma even_double n : Nat.even (2 * n) = true.
Proof. apply Nat.even_spec. exists n. reflexivity. Qed.

Lemma unpack_h_facts : forall pcm,
  Forall (fun z => (-32768 <= z <= 32767)%Z) (unpack_h pcm) /\
  (length pcm = 2 * length (unpack_h pcm) \/ length pcm = 2 * length (unpack_h pcm) + 1)%nat.
Proof.
  fix IH 1. intros [|lo [|hi r]].
  - split; [constructor | left; reflexivity].
  - split; [constructor | right; reflexivity].
  - rewrite unpack_cons. cbn [length].
    destruct (IH r) as [F L]. split.
    + constructor; [|exact F]. unfold signed16.
      assert (Hl := byte_Z_bounds lo). assert (Hh := byte_Z_bounds hi).
      destruct (32768 <=? _)%Z eqn:E; [apply Z.leb_le in E | apply Z.leb_gt in E]; lia.
    + lia.
Qed.

Lemma sample16_bounds z : (-32768 <= z <= 32767)%Z ->
  -1 <= inject_Z z / 32768 /\ inject_Z z / 32768 < 1.
Proof.
  intros [H1 H2]. rewrite Zle_Qle in H1, H2.
  change (inject_Z (-32768)) with (-32768) in H1.
  change (inject_Z 32767) with 32767 in H2.
  unfold Qdiv. change (/ 32768) with (1 # 32768). generalize dependent (inject_Z z).
  intros v H1 H2. split; lra.
Qed.

Lemma sample8_bounds b :
  -1 <= (inject_Z (byte_Z b) - 128) / 128 /\ (inject_Z (byte_Z b) - 128) / 128 < 1.
Proof.
  destruct (byte_Z_bounds b) as [H1 H2]. rewrite Zle_Qle in H1, H2.
  change (inject_Z 0) with 0 in H1. change (inject_Z 255) with 255 in H2.
  unfold Qdiv. change (/ 128) with (1 # 128). generalize dependent (inject_Z (byte_Z b)).
  intros v H1 H2. split; lra.
Qed.

(** X15. [_parse_pcm_samples]: every sample is in [-1, 1); 16-bit data gives
    one sample per two bytes, 8-bit data one per byte; a 16-bit buffer of
    odd length raises [struct.error] and any other sample width
    [AudioFormatError]. *)
Theorem parse_pcm_samples_cases (pcm : list Byte.byte) (bits : Z) :
  match parse_pcm_samples pcm bits with
  | inr s => Forall (fun v => -1 <= v /\ v < 1) s /\
             ((bits = 16%Z /\ length pcm = (2 * length s)%nat)
              \/ (bits = 8%Z /\ length s = length pcm))
  | inl (PcmStructError _) => bits = 16%Z /\ Nat.odd (length pcm) = true
  | inl (PcmFormatError _) => bits <> 16%Z /\ bits <> 8%Z
  end.
Proof.
  unfold parse_pcm_samples.
  destruct (bits =? 16)%Z eqn:E16; [apply Z.eqb_eq in E16 | apply Z.eqb_neq in E16].
  - destruct (Nat.even (length pcm)) eqn:Ev.
    + destruct (unpack_h_facts pcm) as [F L]. split.
      * apply Forall_map, (Forall_impl _ (fun z H => sample16_bounds z H)), F.
      * left. split; [exact E16|]. rewrite length_map.
        destruct L as [L|L]; [exact L|].
        apply Nat.even_spec in Ev. destruct Ev as [k Hk]. lia.
    + split; [exact E16|]. unfold Nat.odd. rewrite Ev. reflexivity.
  - destruct (bits =? 8)%Z eqn:E8; [apply Z.eqb_eq in E8 | apply Z.eqb_neq in E8].
    + split.
      * apply Forall_map, Forall_forall. intros b _. apply sample8_bounds.
      * right. split; [exact E8 | apply length_map].
    + split; assumption.
Qed.

Lemma pcm_value_bounds s : (-32767 <= pcm_value s <= 32767)%Z.
Proof.
  unfold pcm_value, RateLimit.py_int, py_max, RateLimit.py_min, Qlt_bool.
  set (x := if Qle_bool 1 s then 1 else s).
  assert (Hx : x <= 1) by (unfold x; destruct (Qle_bool 1 s) eqn:E;
    [apply Qle_refl | apply Qle_bool_imp_le in E || (apply Qlt_le_weak, Qnot_le_lt; intros C; apply Qle_bool_iff in C; congruence)]).
  set (y := if negb (Qle_bool x (-1)) then x else -1).
  assert (Hy : -1 <= y <= 1).
  { unfold y. destruct (Qle_bool x (-1)) eqn:E; simpl.
    - split; [apply Qle_refl | lra].
    - split; [|exact Hx]. apply Qlt_le_weak, Qnot_le_lt. intros C.
      apply Qle_bool_iff in C. congruence. }
  destruct (Qle_bool 0 (y * 32767)) eqn:E.
  - apply Qle_bool_iff in E.
    assert (A := Qfloor_resp_le 0 (y * 32767) E).
    assert (B := Qfloor_resp_le (y * 32767) 32767 ltac:(nra)).
    change (Qfloor 0) with 0%Z in A. change (Qfloor 32767) with 32767%Z in B. lia.
  - assert (E' : ~ 0 <= y * 32767) by (intros C; apply Qle_bool_iff in C; congruence).
    assert (A := Qfloor_resp_le 0 (- (y * 32767)) ltac:(nra)).
    assert (B := Qfloor_resp_le (- (y * 32767)) 32767 ltac:(nra)).
    change (Qfloor 0) with 0%Z in A. change (Qfloor 32767) with 32767%Z in B. lia.
Qed.

Lemma pcm_values_int16 s : forallb in_int16 (map pcm_value s) = true.
Proof.
  apply forallb_forall. intros z Hz. apply in_map_iff in Hz.
  destruct Hz as [x [<- _]]. destruct (pcm_value_bounds x).
  unfold in_int16. apply andb_true_iff. split; apply Z.leb_le; lia.
Qed.



(** X16. [struct.pack] then [_parse_pcm_samples] at 16 bits: packing 16-bit
    values and parsing the bytes gives back the values over 32768. *)
Theorem pack_h_parse_roundtrip (zs : list Z) :
  forallb in_int16 zs = true ->
  exists pcm, pack_h zs = Some pcm /\
    parse_pcm_samples pcm 16 = inr (map (fun z => inject_Z z / 32768) zs).
Proof.
  intros H. exists (flat_map le16 zs). unfold pack_h. rewrite H. split; [reflexivity|].
  unfold parse_pcm_samples. simpl. rewrite length_flat_map_le16, even_double.
  rewrite unpack_flat_map_le16 by exact H. reflexivity.
Qed.

Lemma pack_h_parse_roundtrip_witness :
  exists pcm, pack_h [-32768; -1; 0; 32767]%Z = Some pcm /\
    parse_pcm_samples pcm 16 = inr [-32768 # 32768; -1 # 32768; 0 # 32768; 32767 # 32768].
Proof.
  destruct (pack_h_parse_roundtrip [-32768; -1; 0; 32767]%Z eq_refl) as [pcm [E1 E2]].
  exists pcm. split; [exact E1|]. rewrite E2. vm_compute. reflexivity.
Defined.

Lemma fits_L_true x : (0 <= x < 4294967296)%Z -> fits_L x = true.
Proof.
  intros H. unfold fits_L. apply andb_true_iff. split; [apply Z.leb_le | apply Z.ltb_lt]; lia.
Qed.

Lemma fits_L_false x : (4294967296 <= x)%Z -> fits_L x = false.
Proof.
  intros H. unfold fits_L. apply andb_false_iff. right. apply Z.ltb_ge. lia.
Qed.

Lemma pcm_data_length s :
  (Z.of_nat (length (flat_map le16 (map pcm_value s))) / 2 * 1 * 2
   = 2 * Z.of_nat (length s))%Z.
Proof.
  rewrite length_flat_map_le16, length_map. rewrite Nat2Z.inj_mul.
  Z.div_mod_to_equations. lia.
Qed.

(** What [_samples_to_wav] does, by the rate and the number of samples. *)
Lemma samples_to_wav_cases (s : list Q) (rate : Z) :
  let n := Z.of_nat (length s) in
  samples_to_wav s rate =
    if (rate <=? 0)%Z then inl (s2l "sampling rate not specified")
    else if ((rate <? 2147483648) && (36 + 2 * n <? 4294967296))%Z
    then inr (wav_header 1 2 rate (2 * n) ++ flat_map le16 (map pcm_value s))
    else inl L_range_msg.
Proof.
  intros n. unfold samples_to_wav, pack_h. rewrite pcm_values_int16, pcm_data_length.
  fold n. assert (Hn : (0 <= n)%Z) by apply Nat2Z.is_nonneg.
  destruct (Z.leb_spec rate 0) as [Hr|Hr]; [reflexivity|].
  cbn [forallb].
  destruct (Z.ltb_spec rate 2147483648) as [H1|H1];
    destruct (Z.ltb_spec (36 + 2 * n) 4294967296) as [H2|H2]; cbn [andb].
  - rewrite (fits_L_true (36 + 2 * n)), (fits_L_true rate), (fits_L_true (1 * rate * 2)),
      (fits_L_true (2 * n)) by lia. reflexivity.
  - rewrite (fits_L_false (36 + 2 * n)) by lia. reflexivity.
  - rewrite (fits_L_false (1 * rate * 2)) by lia.
    destruct (fits_L (36 + 2 * n)), (fits_L rate); reflexivity.
  - rewrite (fits_L_false (36 + 2 * n)) by lia. reflexivity.
Qed.

Lemma samples_to_wav_16k (s : list Q) :
  samples_to_wav s WHISPER_SAMPLE_RATE =
    if (36 + 2 * Z.of_nat (length s) <? 4294967296)%Z then inr (wav_data s)
    else inl L_range_msg.
Proof.
  rewrite samples_to_wav_cases. cbv zeta. cbn [Z.leb Z.ltb Z.compare andb WHISPER_SAMPLE_RATE].
  destruct (36 + 2 * Z.of_nat (length s) <? 4294967296)%Z; [|reflexivity].
  unfold wav_data. rewrite pcm_data_length. reflexivity.
Qed.




End PcmExtras.

Section MonoExtras.
Import Audio Samples.
Local Open Scope Q_scope.

Lemma fold_left_Qplus l : forall a, fold_left Qplus l a == a + fold_right Qplus 0 l.
Proof.
  induction l as [|x l IH]; intros a; simpl; [ring|]. rewrite IH. ring.
Qed.

(** X18. [_convert_to_mono] with a positive channel count never raises and
    gives one sample per started frame of [channels] samples. *)
Theorem convert_to_mono_frames (s : list Q) (ch : Z) :
  (0 < ch)%Z ->
  exists out, convert_to_mono s ch = inr out
    /\ Z.of_nat (length out) = ((Z.of_nat (length s) + ch - 1) / ch)%Z.
Proof.
  intros Hch. unfold convert_to_mono.
  replace (ch =? 0)%Z with false by (symmetry; apply Z.eqb_neq; lia).
  replace (ch <? 0)%Z with false by (symmetry; apply Z.ltb_ge; lia).
  eexists. split; [reflexivity|].
  unfold py_range_step. rewrite !length_map, length_seq.
  rewrite Z.sub_0_r, Z2Nat.id; [reflexivity|]. apply Z.div_pos; lia.
Qed.

Lemma convert_to_mono_frames_witness :
  convert_to_mono [1; 2; 3; 4; 5] 2 = inr [3 # 2; 7 # 2; 5] /\
  Z.of_nat (length [3 # 2; 7 # 2; 5]) = ((5 + 2 - 1) / 2)%Z.
Proof.
  destruct (convert_to_mono_frames [1; 2; 3; 4; 5] 2 ltac:(lia)) as [out [E L]].
  split; [vm_compute; reflexivity|]. vm_compute in E. injection E as <-. exact L.
Defined.

End MonoExtras.

Section NormalizeExtras.
Import Audio Samples.
Local Open Scope Q_scope.
Variable wf : list Byte.byte -> sum text (list Byte.byte).

Lemma Qlt_bool_spec x y : Qlt_bool x y = true <-> x < y.
Proof.
  unfold Qlt_bool. rewrite negb_true_iff. split.
  - intros H. apply Qnot_le_lt. intros C. apply Qle_bool_iff in C. congruence.
  - intros H. destruct (Qle_bool y x) eqn:E; [|reflexivity].
    apply Qle_bool_iff in E. apply Qle_not_lt in E. contradiction.
Qed.

Lemma wav_data_cons s : exists x r, wav_data s = x :: r.
Proof. eexists. eexists. reflexivity. Qed.






(** X20. The output of [normalize_for_whisper] is normalized and valid, so
    normalizing it again returns it unchanged, whatever the sample width. *)
Theorem normalize_idempotent (bits bits' : Z) (a b : AudioData) :
  normalize wf bits a = inr b ->
  is_normalized b = true /\ validate_audio_for_whisper b = None
  /\ normalize wf bits' b = inr b.
Proof.
  assert (Fin : forall b, is_normalized b = true -> validate_audio_for_whisper b = None ->
            is_normalized b = true /\ validate_audio_for_whisper b = None
            /\ normalize wf bits' b = inr b).
  { intros b0 H1 H2. repeat split; try assumption.
    unfold normalize, normalize_for_whisper. rewrite H1, H2. reflexivity. }
  unfold normalize at 1, normalize_for_whisper.
  destruct (is_normalized a) eqn:Hn.
  - destruct (validate_audio_for_whisper a) eqn:Hv; intros H; [discriminate|].
    injection H as <-. apply Fin; assumption.
  - destruct (samples_of wf bits a) as [e|s]; [discriminate|].
    rewrite samples_to_wav_16k.
    destruct (36 + 2 * Z.of_nat (length s) <? 4294967296)%Z; [|discriminate].
    destruct (wav_data_cons s) as [x [r E]].
    cbn [audio_data normalized_audio]. rewrite E.
    destruct (validate_audio_for_whisper (normalized_audio _ s)) eqn:Hv;
      intros H; [discriminate|].
    injection H as <-. apply Fin; [reflexivity | exact Hv].
Qed.


(** Two bytes of 16-bit PCM at 48 kHz: one sample, resampled to none,
    gives a 44-byte WAV file of duration 0 that passes the validation. *)
Definition one_sample_48k : AudioData :=
  mkAudio [Byte.x00; Byte.x00] 48000 PCM 1 None.




End NormalizeExtras.

Section NormalizeWitnesses.
Import Audio Samples.
Local Open Scope Q_scope.

(** A [wave] reader that rejects every buffer. *)
Definition no_wave (b : list Byte.byte) : sum text (list Byte.byte) :=
  inl (s2l "file does not start with RIFF id").




Lemma normalize_idempotent_witness :
  is_normalized (normalized_audio (wav_data []) []) = true /\
  normalize no_wave 8 (normalized_audio (wav_data []) []) = inr (normalized_audio (wav_data []) []).
Proof.
  destruct (normalize_idempotent no_wave 16 8 one_sample_48k (normalized_audio (wav_data []) [])
              ltac:(vm_compute; reflexivity)) as [H1 [_ H3]].
  split; assumption.
Defined.

End NormalizeWitnesses.

Section SilenceExtras.
Import Audio Samples.
Local Open Scope Q_scope.
Variable wf : list Byte.byte -> sum text (list Byte.byte).

Lemma unpack_zeros k : unpack_h (repeat Byte.x00 (2 * k)) = repeat 0%Z k.
Proof.
  induction k as [|k IH]; [reflexivity|].
  replace (2 * S k)%nat with (S (S (2 * k))) by lia.
  cbn [repeat]. rewrite unpack_cons, IH. reflexivity.
Qed.

Lemma fold_right_zeros l : Forall (fun x => x == 0) l -> fold_right Qplus 0 l == 0.
Proof.
  induction 1 as [|x l Hx _ IH]; simpl; [reflexivity|]. rewrite Hx, IH. reflexivity.
Qed.

(** X24. [detect_silence] never reports silence for a threshold [<= 0], is
    monotone in the threshold, never reports silence for a raw buffer of
    odd length (the parse error is swallowed), and reports silence for
    raw all-zero 16-bit data at any positive threshold. *)
Theorem detect_silence_threshold (a : AudioData) (t t' : Q) :
  (t <= 0 -> detect_silence wf a t = false)
  /\ (detect_silence wf a t = true -> t <= t' -> detect_silence wf a t' = true)
  /\ (format a <> WAV -> Nat.odd (length (audio_data a)) = true ->
      detect_silence wf a t = false)
  /\ (format a <> WAV -> forall k, audio_data a = repeat Byte.x00 (2 * S k) -> 0 < t ->
      detect_silence wf a t = true).
Proof.
  unfold detect_silence. repeat split.
  - intros Ht. destruct (parse_audio_to_samples wf a 16) as [|[|x s]]; try reflexivity.
    replace (Qlt_bool 0 t) with false; [reflexivity|].
    symmetry. apply not_true_iff_false. rewrite Qlt_bool_spec. intros C. lra.
  - destruct (parse_audio_to_samples wf a 16) as [|[|x s]]; try discriminate.
    intros H Htt. apply andb_true_iff in H. destruct H as [H1 H2].
    apply Qlt_bool_spec in H1, H2. apply andb_true_iff.
    split; apply Qlt_bool_spec; [lra|].
    apply Qlt_le_trans with (t * t); [exact H2 | nra].
  - intros Hf Ho. unfold parse_audio_to_samples, parse_pcm_samples.
    unfold Nat.odd in Ho. apply negb_true_iff in Ho.
    destruct (format a); [contradiction| | | |]; simpl Z.eqb; cbv iota; rewrite Ho; reflexivity.
  - intros Hf k Hd Ht. unfold parse_audio_to_samples, parse_pcm_samples.
    assert (Ev : Nat.even (length (audio_data a)) = true)
      by (rewrite Hd, repeat_length; apply even_double).
    assert (E : parse_audio_to_samples wf a 16 = inr (map (fun z => inject_Z z / 32768) (repeat 0%Z (S k)))).
    { unfold parse_audio_to_samples, parse_pcm_samples.
      destruct (format a); [contradiction| | | |]; simpl Z.eqb; cbv iota;
        rewrite Ev, Hd, unpack_zeros; reflexivity. }
    unfold parse_audio_to_samples, parse_pcm_samples in E. rewrite E.
    cbn [map repeat]. apply andb_true_iff. split; apply Qlt_bool_spec; [exact Ht|].
    unfold py_sum. rewrite fold_left_Qplus, fold_right_zeros.
    + cbn [length]. rewrite Qplus_0_l. unfold Qdiv. rewrite Qmult_0_l. nra.
    + constructor; [reflexivity|]. apply Forall_map, Forall_map, Forall_forall.
      intros x Hx. apply repeat_spec in Hx. subst x. reflexivity.
Qed.

End SilenceExtras.
